(** * Brevit.js: the flattening encoder and its prefix abbreviations

    A shallow embedding of [BrevitClient] (brevit.js): the array
    classifiers [_isUniformObjectArray] and [_isPrimitiveArray], the value
    escaping, the recursive [_flatten], the abbreviation table built by
    [_generateAbbreviations], the rewrite [_applyAbbreviations] and the
    facade [_flattenObject].

    Conventions of the embedding:
    - a JS string is a [string] of ASCII characters, one per UTF-16 code
      unit;
    - a JS value is a JSON tree; an object is the list of its own
      enumerable properties in [Object.entries] order;
    - a number carries its canonical text [String(n)], the only observation
      the encoder makes of a number;
    - a [Map] is an association list in insertion order, a [Set] a [gset];
    - a [TypeError] is [None]. *)

From stdpp Require Import gmap strings list pretty.
From Stdlib Require Import Ascii ZArith Lia Sorted.

Local Open Scope Z_scope.
Local Open Scope nat_scope.

(** ** JavaScript string primitives *)

Module Js.

(** The characters the encoder names: double quote, backslash, line feed. *)
Definition dquote : ascii := "034"%char.
Definition backslash : ascii := "092"%char.
Definition lf : ascii := "010"%char.
Definition nl : string := String lf EmptyString.

(** [Boolean(s)] for a string: the empty string is the only falsy one. *)
Definition truthy (s : string) : bool :=
  match s with
  | EmptyString => false
  | String _ _ => true
  end.

(** [s.includes(c)] for a one-character needle. *)
Fixpoint includes (c : ascii) (s : string) : bool :=
  match s with
  | EmptyString => false
  | String a r => if decide (a = c) then true else includes c r
  end.

(** [s.startsWith(p)]. *)
Fixpoint startsWith (s p : string) {struct p} : bool :=
  match p, s with
  | EmptyString, _ => true
  | String _ _, EmptyString => false
  | String a p', String b s' => if decide (a = b) then startsWith s' p' else false
  end.

(** [s.substring(n)]. *)
Fixpoint substringFrom (n : nat) (s : string) : string :=
  match n, s with
  | O, _ => s
  | S _, EmptyString => EmptyString
  | S n', String _ r => substringFrom n' r
  end.

(** [s.substring(0, n)]. *)
Fixpoint substringTo (n : nat) (s : string) : string :=
  match n, s with
  | O, _ => EmptyString
  | S _, EmptyString => EmptyString
  | S n', String a r => String a (substringTo n' r)
  end.

(** [s.indexOf(c)] for a one-character needle; [-1] when absent. *)
Fixpoint indexOf (c : ascii) (s : string) : Z :=
  match s with
  | EmptyString => (-1)%Z
  | String a r =>
      if decide (a = c) then 0%Z
      else let i := indexOf c r in if (i <? 0)%Z then (-1)%Z else (i + 1)%Z
  end.

(** [s.split(c)] for a one-character separator. *)
Fixpoint split (c : ascii) (s : string) : list string :=
  match s with
  | EmptyString => [EmptyString]
  | String a r =>
      if decide (a = c) then EmptyString :: split c r
      else match split c r with
           | [] => [String a EmptyString]
           | h :: t => String a h :: t
           end
  end.

(** [parts.join(sep)] on an array of strings. *)
Definition join (sep : string) (parts : list string) : string :=
  String.concat sep parts.

(** The replacement of every double quote by a backslash and a double
    quote, the [replace] of [_escapeValue]. *)
Fixpoint escapeQuotes (s : string) : string :=
  match s with
  | EmptyString => EmptyString
  | String a r =>
      if decide (a = dquote) then String backslash (String dquote (escapeQuotes r))
      else String a (escapeQuotes r)
  end.

Definition lowerChar (a : ascii) : ascii :=
  let n := nat_of_ascii a in
  if (65 <=? n) && (n <=? 90) then ascii_of_nat (n + 32) else a.

(** [s.toLowerCase()] on the ASCII letters. *)
Fixpoint toLowerCase (s : string) : string :=
  match s with
  | EmptyString => EmptyString
  | String a r => String (lowerChar a) (toLowerCase r)
  end.

(** [String.fromCharCode(n)]. *)
Definition fromCharCode (n : nat) : string := String (ascii_of_nat n) EmptyString.

(** [p[0]] of a string: [None] is [undefined]. *)
Definition charAt0 (p : string) : option string :=
  match p with
  | EmptyString => None
  | String a _ => Some (String a EmptyString)
  end.

End Js.

(** ** Values *)

Local Unset Elimination Schemes.

Inductive value : Type :=
  | VNull
  | VBool (b : bool)
  | VNum (repr : string)
  | VStr (s : string)
  | VObj (entries : list (string * value))
  | VArr (items : list value).

Local Set Elimination Schemes.

(** [Object.keys(o)]. *)
Definition keysOf (entries : list (string * value)) : list string := entries.*1.

(** [o[key]] on the own properties of an object; [None] is [undefined]. *)
Fixpoint getProp (entries : list (string * value)) (key : string) : option value :=
  match entries with
  | [] => None
  | (k, v) :: rest => if decide (k = key) then Some v else getProp rest key
  end.

(** [item[key]] as [_formatTabularArray] asks it: of the items of an array
    that passed the uniform check, which are objects. *)
Definition getMember (item : value) (key : string) : option value :=
  match item with
  | VObj entries => getProp entries key
  | _ => None
  end.

(** [typeof v === 'object' && v !== null]: objects and arrays. *)
Definition isObjectLike (v : value) : bool :=
  match v with
  | VObj _ | VArr _ => true
  | _ => false
  end.

(** [String(v)]. A plain object prints as [[object Object]] through the
    [toString] it inherits; an object with an own [toString] member shadows
    it with a member that is not callable (no member of a JSON tree is), the
    inherited [valueOf] returns the object itself, and the conversion throws
    a [TypeError]. An array prints its elements joined by a comma, [null]
    elements as the empty string, and throws when one of its elements
    does. *)
Fixpoint String_of (v : value) : option string :=
  match v with
  | VNull => Some "null"
  | VBool true => Some "true"
  | VBool false => Some "false"
  | VNum repr => Some repr
  | VStr s => Some s
  | VObj entries =>
      if bool_decide ("toString" ∈ keysOf entries) then None
      else Some "[object Object]"
  | VArr items =>
      Js.join ","
        <$> mapM (fun x => match x with VNull => Some EmptyString | _ => String_of x end)
              items
  end.

(** [x ?? 'null']. *)
Definition orNull (x : option value) : value :=
  match x with
  | None | Some VNull => VStr "null"
  | Some v => v
  end.

(** ** Array classification *)

(** The loop of [_isUniformObjectArray] over the items after the first. *)
Fixpoint uniformLoop (firstKeys : list string) (firstKeySet : gset string)
    (rest : list value) : bool :=
  match rest with
  | [] => true
  | item :: rest' =>
      match item with
      | VObj entries =>
          let itemKeys := keysOf entries in
          if negb (length firstKeys =? length itemKeys) then false
          else if negb (forallb (fun key => bool_decide (key ∈ firstKeySet)) itemKeys) then false
          else uniformLoop firstKeys firstKeySet rest'
      | _ => false
      end
  end.

Definition _isUniformObjectArray (arr : list value) : option (list string) :=
  match arr with
  | [] => None
  | firstItem :: rest =>
      match firstItem with
      | VObj entries =>
          let firstKeys := keysOf entries in
          let firstKeySet : gset string := list_to_set firstKeys in
          if uniformLoop firstKeys firstKeySet rest then Some firstKeys else None
      | _ => None
      end
  end.

(** The loop of [_isPrimitiveArray] over the items after the first. *)
Fixpoint primitiveLoop (rest : list value) : bool :=
  match rest with
  | [] => true
  | item :: rest' => if isObjectLike item then false else primitiveLoop rest'
  end.

Definition _isPrimitiveArray (arr : list value) : bool :=
  match arr with
  | [] => false
  | first :: rest => if isObjectLike first then false else primitiveLoop rest
  end.

(** ** Escaping and the two compact array formats *)

Definition needsQuoting (str : string) : bool :=
  Js.includes ","%char str || Js.includes Js.lf str || Js.includes Js.dquote str.

(** [None] when [String(value)] throws. *)
Definition _escapeValue (v : value) : option string :=
  str ← String_of v;
  Some (if needsQuoting str then
          String Js.dquote (Js.escapeQuotes str) +:+ String Js.dquote EmptyString
        else str).

(** The [keys.map(...).join(',')] of one item of [_formatTabularArray]. *)
Definition tabularRow (keys : list string) (item : value) : option string :=
  Js.join "," <$> mapM (fun key => _escapeValue (orNull (getMember item key))) keys.

(** Destructuring [null] throws: the result is [None] when the check fails,
    and when a cell does not print. *)
Definition _formatTabularArray (arr : list value) (prefix : string) : option string :=
  keys ← _isUniformObjectArray arr;
  let header := prefix +:+ "[" +:+ pretty (length arr) +:+ "]{" +:+ Js.join "," keys +:+ "}:" in
  rows ← mapM (tabularRow keys) arr;
  Some (header +:+ Js.nl +:+ Js.join Js.nl rows).

Definition _formatPrimitiveArray (arr : list value) (prefix : string) : option string :=
  values ← mapM _escapeValue arr;
  Some (prefix +:+ "[" +:+ pretty (length arr) +:+ "]:" +:+ Js.join "," values).

(** ** The recursive flattening *)

Definition fieldPrefix (prefix key : string) : string :=
  if Js.truthy prefix then prefix +:+ "." +:+ key else key.

Definition indexPrefix (prefix : string) (index : nat) : string :=
  prefix +:+ "[" +:+ pretty index +:+ "]".

(** [output] is the array the source pushes to; the result is that array
    after the call, [None] when the call throws: the array is local to
    [_flattenObject], which does not catch, and is lost with what was pushed
    to it before the throw. *)
Fixpoint _flatten (node : value) (prefix : string) (output : list string)
    {struct node} : option (list string) :=
  match node with
  | VObj entries =>
      (fix forEach (es : list (string * value)) (output : list string)
           {struct es} : option (list string) :=
         match es with
         | [] => Some output
         | (key, v) :: es' =>
             match _flatten v (fieldPrefix prefix key) output with
             | Some output' => forEach es' output'
             | None => None
             end
         end) entries output
  | VArr items =>
      match _isUniformObjectArray items with
      | Some _ =>
          match _formatTabularArray items prefix with
          | Some line => Some (output ++ [line])
          | None => None
          end
      | None =>
          if _isPrimitiveArray items then
            match _formatPrimitiveArray items prefix with
            | Some line => Some (output ++ [line])
            | None => None
            end
          else
            (fix forEach (l : list value) (index : nat) (output : list string)
                 {struct l} : option (list string) :=
               match l with
               | [] => Some output
               | item :: l' =>
                   match _flatten item (indexPrefix prefix index) output with
                   | Some output' => forEach l' (S index) output'
                   | None => None
                   end
               end) items 0 output
      end
  | _ =>
      let prefix := if Js.truthy prefix then prefix else "value" in
      match String_of node with
      | Some text => Some (output ++ [prefix +:+ ":" +:+ text])
      | None => None
      end
  end.

(** The two [forEach] loops of [_flatten], named. *)
Definition flattenEntries (prefix : string)
    : list (string * value) → list string → option (list string) :=
  fix forEach (es : list (string * value)) (output : list string)
      {struct es} : option (list string) :=
    match es with
    | [] => Some output
    | (key, v) :: es' =>
        match _flatten v (fieldPrefix prefix key) output with
        | Some output' => forEach es' output'
        | None => None
        end
    end.

Definition flattenItems (prefix : string)
    : list value → nat → list string → option (list string) :=
  fix forEach (l : list value) (index : nat) (output : list string)
      {struct l} : option (list string) :=
    match l with
    | [] => Some output
    | item :: l' =>
        match _flatten item (indexPrefix prefix index) output with
        | Some output' => forEach l' (S index) output'
        | None => None
        end
    end.

(** ** Configuration *)

(** The two options of [BrevitConfig] the encoder reads. *)
Record BrevitConfig : Type := {
  enableAbbreviations : bool;
  abbreviationThreshold : Z
}.

(** The defaults of the constructor. *)
Definition defaultConfig : BrevitConfig :=
  {| enableAbbreviations := true; abbreviationThreshold := 2 |}.

(** ** Insertion-ordered maps *)

Section JsMap.
Context {V : Type}.

(** [m.get(k)]. *)
Fixpoint mapGet (k : string) (m : list (string * V)) : option V :=
  match m with
  | [] => None
  | (k', v) :: m' => if decide (k' = k) then Some v else mapGet k m'
  end.

(** [m.set(k, v)]: an existing key keeps its place, a new one goes last. *)
Fixpoint mapSet (k : string) (v : V) (m : list (string * V)) : list (string * V) :=
  match m with
  | [] => [(k, v)]
  | (k', v') :: m' =>
      if decide (k' = k) then (k, v) :: m' else (k', v') :: mapSet k v m'
  end.
End JsMap.

(** ** Counting the dotted prefixes *)

(** The body of [paths.forEach] in [_generateAbbreviations]: every proper
    dotted prefix of [path] is counted once. *)
Definition countPath (prefixCounts : list (string * nat)) (path : string)
    : list (string * nat) :=
  let parts := Js.split "."%char path in
  foldl (fun counts i =>
           let prefix := Js.join "." (take i parts) in
           mapSet prefix (default 0 (mapGet prefix counts) + 1) counts)
        prefixCounts (seq 1 (length parts - 1)).

Definition prefixCounts (paths : list string) : list (string * nat) :=
  foldl countPath [] paths.

(** The comparator given to [sort]: count descending, then length
    ascending. *)
Definition compareEntries (a b : string * nat) : Z :=
  if negb (b.2 =? a.2) then (Z.of_nat b.2 - Z.of_nat a.2)%Z
  else (Z.of_nat (String.length a.1) - Z.of_nat (String.length b.1))%Z.

(** [Array.prototype.sort] is stable: an insertion sort that keeps equal
    entries in their order. *)
Fixpoint insertEntry (x : string * nat) (l : list (string * nat)) : list (string * nat) :=
  match l with
  | [] => [x]
  | y :: l' => if (compareEntries x y <=? 0)%Z then x :: y :: l' else y :: insertEntry x l'
  end.

Definition sortEntries (l : list (string * nat)) : list (string * nat) :=
  foldr insertEntry [] l.

Definition frequentPrefixes (cfg : BrevitConfig) (paths : list string)
    : list (string * nat) :=
  sortEntries
    (List.filter (fun e : string * nat => (abbreviationThreshold cfg <=? Z.of_nat e.2)%Z)
       (prefixCounts paths)).

(** ** Choosing an alias *)

(** The [do ... while] of strategy 3. [num] never exceeds [fuel], so the
    loop has ended when the fuel is spent. *)
Fixpoint counterLoop (fuel num : nat) (abbr : string) : string :=
  let abbr' := Js.fromCharCode (97 + num mod 26) +:+ abbr in
  match fuel with
  | O => abbr'
  | S fuel' => if num <? 26 then abbr' else counterLoop fuel' (num / 26 - 1) abbr'
  end.

Definition counterAbbr (counter : nat) : string :=
  counterLoop counter counter EmptyString.

(** The result pairs the alias with [usedAbbrs] as the call leaves it.
    [undefined.toLowerCase()] throws when the first segment is empty. *)
Definition _generateAbbreviation (prefix : string) (counter : nat)
    (usedAbbrs : gset string) : option (string * gset string) :=
  first ← head (Js.split "."%char prefix);
  c ← Js.charAt0 first;
  let firstLetter := Js.toLowerCase c in
  if bool_decide (firstLetter ∉ usedAbbrs) then
    Some (firstLetter, {[firstLetter]} ∪ usedAbbrs)
  else
    let parts := Js.split "."%char prefix in
    let multiLetter :=
      Js.toLowerCase
        (Js.join EmptyString (List.map (fun p => default EmptyString (Js.charAt0 p)) parts)) in
    if (1 <? length parts) && bool_decide (multiLetter ∉ usedAbbrs)
       && (String.length multiLetter <=? 3) then
      Some (multiLetter, {[multiLetter]} ∪ usedAbbrs)
    else
      let abbr := counterAbbr counter in
      Some (abbr, {[abbr]} ∪ usedAbbrs).

(** ** Building the abbreviation table *)

(** The variables the [forEach] of [_generateAbbreviations] updates. *)
Record abbrState : Type := {
  abbreviationMap : list (string * string);
  definitions : list string;
  abbrCounter : nat;
  usedAbbrs : gset string
}.

Definition initialState : abbrState :=
  {| abbreviationMap := []; definitions := []; abbrCounter := 0; usedAbbrs := ∅ |}.

Definition definitionCost (prefix abbr : string) : Z :=
  (Z.of_nat (String.length prefix) + Z.of_nat (String.length abbr) + 3)%Z.

Definition savings (prefix abbr : string) (count : nat) : Z :=
  ((Z.of_nat (String.length prefix) - Z.of_nat (String.length abbr) - 1) * Z.of_nat count)%Z.

Definition definitionLine (prefix abbr : string) : string :=
  "@" +:+ abbr +:+ "=" +:+ prefix.

(** The body of [frequentPrefixes.forEach]. *)
Definition abbreviateStep (st : abbrState) (entry : string * nat) : option abbrState :=
  let '(prefix, count) := entry in
  '(abbr, used) ← _generateAbbreviation prefix (abbrCounter st) (usedAbbrs st);
  if (definitionCost prefix abbr <? savings prefix abbr count)%Z then
    Some {| abbreviationMap := mapSet prefix abbr (abbreviationMap st);
            definitions := definitions st ++ [definitionLine prefix abbr];
            abbrCounter := S (abbrCounter st);
            usedAbbrs := used |}
  else
    Some {| abbreviationMap := abbreviationMap st;
            definitions := definitions st;
            abbrCounter := abbrCounter st;
            usedAbbrs := used |}.

Fixpoint abbreviateAll (st : abbrState) (entries : list (string * nat)) : option abbrState :=
  match entries with
  | [] => Some st
  | entry :: entries' =>
      match abbreviateStep st entry with
      | Some st' => abbreviateAll st' entries'
      | None => None
      end
  end.

Definition _generateAbbreviations (cfg : BrevitConfig) (paths : list string)
    : option (list (string * string) * list string) :=
  if negb (enableAbbreviations cfg) then Some ([], [])
  else
    st ← abbreviateAll initialState (frequentPrefixes cfg paths);
    Some (abbreviationMap st, definitions st).

(** ** Rewriting a path *)

(** The [for ... of] of [_applyAbbreviations]: the best match so far. *)
Definition bestMatchStep (path : string) (best : string * string)
    (entry : string * string) : string * string :=
  if Js.startsWith path (entry.1 +:+ ".") && (String.length best.1 <? String.length entry.1)
  then entry else best.

Definition _applyAbbreviations (cfg : BrevitConfig) (path : string)
    (abbreviationMap : list (string * string)) : string :=
  if negb (enableAbbreviations cfg) || (length abbreviationMap =? 0) then path
  else
    let '(bestMatch, bestAbbr) :=
      foldl (bestMatchStep path) (EmptyString, EmptyString) abbreviationMap in
    if Js.truthy bestMatch then
      "@" +:+ bestAbbr +:+ "." +:+ Js.substringFrom (String.length bestMatch + 1) path
    else path.

(** ** The facade *)

(** The path of an emitted line, as [_flattenObject] extracts it. *)
Definition pathOfLine (line : string) : string :=
  let colonIndex := Js.indexOf ":"%char line in
  if (0 <? colonIndex)%Z then
    let pathPart := Js.substringTo (Z.to_nat colonIndex) line in
    let bracketIndex := Js.indexOf "["%char pathPart in
    if (0 <? bracketIndex)%Z then Js.substringTo (Z.to_nat bracketIndex) pathPart
    else pathPart
  else default EmptyString (head (Js.split ":"%char line)).

(** The rewrite of one emitted line. *)
Definition abbreviateLine (cfg : BrevitConfig) (abbreviationMap : list (string * string))
    (line : string) : string :=
  let colonIndex := Js.indexOf ":"%char line in
  if (colonIndex =? -1)%Z then line
  else
    let pathPart := Js.substringTo (Z.to_nat colonIndex) line in
    let valuePart := Js.substringFrom (Z.to_nat colonIndex) line in
    let bracketIndex := Js.indexOf "["%char pathPart in
    if (0 <? bracketIndex)%Z then
      let basePath := Js.substringTo (Z.to_nat bracketIndex) pathPart in
      let rest := Js.substringFrom (Z.to_nat bracketIndex) pathPart in
      _applyAbbreviations cfg basePath abbreviationMap +:+ rest +:+ valuePart
    else
      _applyAbbreviations cfg pathPart abbreviationMap +:+ valuePart.

Definition _flattenObject (cfg : BrevitConfig) (obj : value) : option string :=
  output ← _flatten obj EmptyString [];
  let paths := List.map pathOfLine output in
  '(abbreviationMap, definitions) ← _generateAbbreviations cfg paths;
  let abbreviatedOutput := List.map (abbreviateLine cfg abbreviationMap) output in
  if 0 <? length definitions then
    Some (Js.join Js.nl definitions +:+ Js.nl +:+ Js.join Js.nl abbreviatedOutput)
  else
    Some (Js.join Js.nl abbreviatedOutput).

(** ** The client: analysis, strategy, [optimize] and [brevity] *)

(** The three enumerations of modes. *)
Inductive JsonOptimizationMode : Type := JsonNone | Flatten | ToYaml | Filter.
Inductive TextOptimizationMode : Type :=
  TextNone | Clean | SummarizeFast | SummarizeHighQuality.
Inductive ImageOptimizationMode : Type := ImageNone | Ocr | Metadata.

(** The options of the constructor of [BrevitConfig]; the two the encoder
    reads are those of [encoderOptions]. *)
Record ClientConfig : Type := {
  jsonMode : JsonOptimizationMode;
  textMode : TextOptimizationMode;
  imageMode : ImageOptimizationMode;
  jsonPathsToKeep : list string;
  longTextThreshold : Z;
  encoderOptions : BrevitConfig
}.

Definition defaultClientConfig : ClientConfig :=
  {| jsonMode := Flatten; textMode := Clean; imageMode := Ocr;
     jsonPathsToKeep := []; longTextThreshold := 500;
     encoderOptions := defaultConfig |}.

(** [s.trim()] on the ASCII white space. *)
Fixpoint trimStart (s : string) : string :=
  match s with
  | EmptyString => EmptyString
  | String a r => if Ascii.is_space a then trimStart r else s
  end.

Definition trim (s : string) : string :=
  String.rev (trimStart (String.rev (trimStart s))).

(** [s.endsWith(c)] for a one-character suffix. *)
Fixpoint endsWithChar (c : ascii) (s : string) : bool :=
  match s with
  | EmptyString => false
  | String a EmptyString => if decide (a = c) then true else false
  | String _ r => endsWithChar c r
  end.

(** The test both [optimize] and [brevity] make before [JSON.parse]. *)
Definition looksLikeJson (rawData : string) : bool :=
  let trimmed := trim rawData in
  (Js.startsWith trimmed "{" && endsWithChar "}" trimmed)
  || (Js.startsWith trimmed "[" && endsWithChar "]" trimmed).

(** [Boolean(v)]: [null], [false], the numbers [0] and [NaN] and the empty
    string are falsy. *)
Definition valueTruthy (v : value) : bool :=
  match v with
  | VNull => false
  | VBool b => b
  | VNum repr =>
      negb (bool_decide (repr = "0") || bool_decide (repr = "-0")
            || bool_decide (repr = "NaN"))
  | VStr s => Js.truthy s
  | VObj _ | VArr _ => true
  end.

(** [rawData.constructor && rawData.constructor.name === 'Buffer'] on a
    tree. An array reads the [constructor] of its prototype, whose name is
    [Array]. An object reads its own [constructor] member when it has one,
    and else that of its prototype, whose name is [Object]; of an own
    member only an object can have a [name], which is its own member of that
    key. *)
Definition namedBuffer (v : value) : bool :=
  match v with
  | VObj entries =>
      match getProp entries "constructor" with
      | Some c =>
          valueTruthy c
          && match c with
             | VObj members =>
                 match getProp members "name" with
                 | Some (VStr n) => bool_decide (n = "Buffer")
                 | _ => false
                 end
             | _ => false
             end
      | None => false
      end
  | _ => false
  end.

Inductive DataType : Type :=
  LongTextData | TextData | ImageData | ArrayData | ObjectData | PrimitiveData.

Inductive Complexity : Type := Simple | Moderate | Complex.

(** The [analysis] object of [_analyzeDataStructure]. *)
Record Analysis : Type := {
  type : option DataType;
  depth : nat;
  hasUniformArrays : bool;
  hasPrimitiveArrays : bool;
  hasNestedObjects : bool;
  textLength : nat;
  arrayCount : nat;
  objectCount : nat;
  complexity : Complexity
}.

Definition initialAnalysis : Analysis :=
  {| type := None; depth := 0; hasUniformArrays := false;
     hasPrimitiveArrays := false; hasNestedObjects := false; textLength := 0;
     arrayCount := 0; objectCount := 0; complexity := Simple |}.

(** The updates the closure [analyze] makes to [analysis]. *)
Definition noteDepth (d : nat) (a : Analysis) : Analysis :=
  {| type := type a; depth := Nat.max (depth a) d;
     hasUniformArrays := hasUniformArrays a;
     hasPrimitiveArrays := hasPrimitiveArrays a;
     hasNestedObjects := hasNestedObjects a; textLength := textLength a;
     arrayCount := arrayCount a; objectCount := objectCount a;
     complexity := complexity a |}.

Definition noteText (s : string) (a : Analysis) : Analysis :=
  {| type := type a; depth := depth a;
     hasUniformArrays := hasUniformArrays a;
     hasPrimitiveArrays := hasPrimitiveArrays a;
     hasNestedObjects := hasNestedObjects a;
     textLength := textLength a + String.length s;
     arrayCount := arrayCount a; objectCount := objectCount a;
     complexity := complexity a |}.

Definition noteArray (items : list value) (a : Analysis) : Analysis :=
  {| type := type a; depth := depth a;
     hasUniformArrays :=
       match _isUniformObjectArray items with
       | Some _ => true
       | None => hasUniformArrays a
       end;
     hasPrimitiveArrays :=
       if _isPrimitiveArray items then true else hasPrimitiveArrays a;
     hasNestedObjects := hasNestedObjects a; textLength := textLength a;
     arrayCount := arrayCount a + 1; objectCount := objectCount a;
     complexity := complexity a |}.

Definition noteObject (d : nat) (a : Analysis) : Analysis :=
  {| type := type a; depth := depth a;
     hasUniformArrays := hasUniformArrays a;
     hasPrimitiveArrays := hasPrimitiveArrays a;
     hasNestedObjects := if 0 <? d then true else hasNestedObjects a;
     textLength := textLength a;
     arrayCount := arrayCount a; objectCount := objectCount a + 1;
     complexity := complexity a |}.

(** The closure [analyze] of [_analyzeDataStructure]; its [path] argument is
    built and never read. *)
Fixpoint analyze (node : value) (d : nat) (a : Analysis) {struct node} : Analysis :=
  let a := noteDepth d a in
  match node with
  | VStr s => noteText s a
  | VArr items =>
      (fix forEach (l : list value) (a : Analysis) {struct l} : Analysis :=
         match l with
         | [] => a
         | item :: l' => forEach l' (analyze item (S d) a)
         end) items (noteArray items a)
  | VObj entries =>
      (fix forEach (es : list (string * value)) (a : Analysis) {struct es} : Analysis :=
         match es with
         | [] => a
         | (_, v) :: es' => forEach es' (analyze v (S d) a)
         end) entries (noteObject d a)
  | _ => a
  end.

(** The two [forEach] loops of [analyze], named. *)
Definition analyzeItems (d : nat) : list value → Analysis → Analysis :=
  fix forEach (l : list value) (a : Analysis) {struct l} : Analysis :=
    match l with
    | [] => a
    | item :: l' => forEach l' (analyze item (S d) a)
    end.

Definition analyzeEntries (d : nat) : list (string * value) → Analysis → Analysis :=
  fix forEach (es : list (string * value)) (a : Analysis) {struct es} : Analysis :=
    match es with
    | [] => a
    | (_, v) :: es' => forEach es' (analyze v (S d) a)
    end.

Definition complexityOf (a : Analysis) : Complexity :=
  if (3 <? depth a) || (5 <? arrayCount a) || (10 <? objectCount a) then Complex
  else if (1 <? depth a) || (0 <? arrayCount a) || (3 <? objectCount a) then Moderate
  else Simple.

Definition typeOf (cfg : ClientConfig) (data : value) : DataType :=
  match data with
  | VStr s =>
      if (longTextThreshold cfg <? Z.of_nat (String.length s))%Z then LongTextData
      else TextData
  | VArr _ => ArrayData
  | VObj _ => ObjectData
  | _ => PrimitiveData
  end.

(** [_analyzeDataStructure], as [brevity] calls it: on a string or on a
    tree, never on binary data. *)
Definition _analyzeDataStructure (cfg : ClientConfig) (data : value) : Analysis :=
  let a := analyze data 0 initialAnalysis in
  {| type := Some (typeOf cfg data); depth := depth a;
     hasUniformArrays := hasUniformArrays a;
     hasPrimitiveArrays := hasPrimitiveArrays a;
     hasNestedObjects := hasNestedObjects a; textLength := textLength a;
     arrayCount := arrayCount a; objectCount := objectCount a;
     complexity := complexityOf a |}.

(** The comparisons [complexity === 'moderate'] and [type === ...]. *)
Definition isModerate (a : Analysis) : bool :=
  match complexity a with
  | Moderate => true
  | _ => false
  end.

Definition isLongText (a : Analysis) : bool :=
  match type a with
  | Some LongTextData => true
  | _ => false
  end.

Definition isImage (a : Analysis) : bool :=
  match type a with
  | Some ImageData => true
  | _ => false
  end.

(** A strategy object of [_selectOptimalStrategy]; a mode it does not carry
    is [None]. *)
Record Strategy : Type := {
  name : string;
  strategyJsonMode : option JsonOptimizationMode;
  strategyTextMode : option TextOptimizationMode;
  strategyImageMode : option ImageOptimizationMode;
  score : nat;
  reason : string
}.

Definition flattenStrategy (sc : nat) (why : string) : Strategy :=
  {| name := "Flatten"; strategyJsonMode := Some Flatten; strategyTextMode := None;
     strategyImageMode := None; score := sc; reason := why |}.

(** The array [strategies], in the order of the pushes. *)
Definition candidateStrategies (cfg : ClientConfig) (a : Analysis) : list Strategy :=
  (if hasUniformArrays a || hasPrimitiveArrays a then
     [flattenStrategy (if hasUniformArrays a then 100 else 80)
        (if hasUniformArrays a
         then "Uniform object arrays detected - tabular format optimal"
         else "Primitive arrays detected - comma-separated format optimal")]
   else [])
  ++ (if hasNestedObjects a || isModerate a then
        [flattenStrategy 70 "Nested objects detected - flatten format optimal"]
      else [])
  ++ (if isModerate a && negb (hasUniformArrays a) then
        [{| name := "ToYaml"; strategyJsonMode := Some ToYaml; strategyTextMode := None;
            strategyImageMode := None; score := 60;
            reason := "Moderate complexity - YAML format may be more readable" |}]
      else [])
  ++ (if isLongText a then
        [{| name := "TextOptimization"; strategyJsonMode := None;
            strategyTextMode := Some (textMode cfg); strategyImageMode := None;
            score := 90; reason := "Long text detected - summarization recommended" |}]
      else [])
  ++ (if isImage a then
        [{| name := "ImageOptimization"; strategyJsonMode := None;
            strategyTextMode := None; strategyImageMode := Some (imageMode cfg);
            score := 100; reason := "Image data detected - OCR recommended" |}]
      else []).

(** The callback of [strategies.reduce]. *)
Definition betterStrategy (best current : Strategy) : Strategy :=
  if score best <? score current then current else best.

Definition _selectOptimalStrategy (cfg : ClientConfig) (a : Analysis) : Strategy :=
  match candidateStrategies cfg a with
  | [] => flattenStrategy 50 "Default flatten strategy"
  | first :: rest => foldl betterStrategy first rest
  end.

(** The text of [_defaultTextOptimizer]. *)
Definition modeName (m : TextOptimizationMode) : string :=
  match m with
  | TextNone => "None"
  | Clean => "Clean"
  | SummarizeFast => "SummarizeFast"
  | SummarizeHighQuality => "SummarizeHighQuality"
  end.

Definition _defaultTextOptimizer (cfg : ClientConfig) (longText : string) : string :=
  "[" +:+ modeName (textMode cfg) +:+ " Stub: Summary of text follows...]" +:+ Js.nl
  +:+ Js.substringTo 150 longText +:+ "..." +:+ Js.nl +:+ "[End of summary]".

Section Client.

(** Binary input ([ArrayBuffer], [Uint8Array], [Buffer]) and the built-ins
    [JSON.parse] ([None] when it throws) and [JSON.stringify] (with its
    indentation) are given from outside. *)
Context {Binary : Type}.
Variable JSON_parse : string → option value.
Variable JSON_stringify : value → nat → string.

(** What [optimize] and [brevity] receive: a value or binary data. *)
Inductive RawData : Type :=
  | RawValue (v : value)
  | RawBinary (b : Binary).

(** A [BrevitClient]: its configuration and its two optimizers, called with
    the data and the intent. The image optimizer is given the data as
    received: binary data, or an object that passed the test of
    [namedBuffer]. *)
Record BrevitClient : Type := {
  _config : ClientConfig;
  _textOptimizer : string → option string → string;
  _imageOptimizer : RawData → option string → string
}.

(** The text branch of [optimize]. *)
Definition optimizeText (client : BrevitClient) (rawData : string)
    (intent : option string) : string :=
  if (longTextThreshold (_config client) <? Z.of_nat (String.length rawData))%Z
  then _textOptimizer client rawData intent
  else rawData.

(** The [switch] of [optimize] on the configured mode. *)
Definition optimizeObject (client : BrevitClient) (inputObject : value) : option string :=
  match jsonMode (_config client) with
  | Flatten => _flattenObject (encoderOptions (_config client)) inputObject
  | ToYaml => Some (JSON_stringify inputObject 2)
  | Filter => Some (JSON_stringify inputObject 0)
  | JsonNone => Some (JSON_stringify inputObject 0)
  end.

(** [optimize]; the result is the value the promise resolves to, [None] when
    it rejects with the [TypeError] of the encoder. *)
Definition optimize (client : BrevitClient) (rawData : RawData)
    (intent : option string) : option string :=
  match rawData with
  | RawValue (VStr s) =>
      let inputObject := if looksLikeJson s then JSON_parse s else None in
      match inputObject with
      | Some v =>
          if valueTruthy v then optimizeObject client v
          else Some (optimizeText client s intent)
      | None => Some (optimizeText client s intent)
      end
  | RawValue ((VObj _ | VArr _) as v) =>
      if namedBuffer v then Some (_imageOptimizer client rawData intent)
      else optimizeObject client v
  | RawBinary _ => Some (_imageOptimizer client rawData intent)
  | RawValue v => String_of v
  end.

(** The text branch of [brevity]: the strategy decides. *)
Definition brevityText (client : BrevitClient) (rawData : string)
    (intent : option string) : string :=
  let analysis := _analyzeDataStructure (_config client) (VStr rawData) in
  let strategy := _selectOptimalStrategy (_config client) analysis in
  if bool_decide (name strategy = "TextOptimization")
  then _textOptimizer client rawData intent
  else rawData.

(** The configuration [brevity] installs for the call of [optimize]. *)
Definition tempConfig (cfg : ClientConfig) (strategy : Strategy) : ClientConfig :=
  {| jsonMode := default (jsonMode cfg) (strategyJsonMode strategy);
     textMode := default (textMode cfg) (strategyTextMode strategy);
     imageMode := default (imageMode cfg) (strategyImageMode strategy);
     jsonPathsToKeep := jsonPathsToKeep cfg;
     longTextThreshold := longTextThreshold cfg;
     encoderOptions := encoderOptions cfg |}.

Definition withConfig (client : BrevitClient) (cfg : ClientConfig) : BrevitClient :=
  {| _config := cfg; _textOptimizer := _textOptimizer client;
     _imageOptimizer := _imageOptimizer client |}.

(** The end of [brevity]: analysis, strategy, and [optimize] under the
    temporary configuration. *)
Definition brevityObject (client : BrevitClient) (inputObject : value)
    (intent : option string) : option string :=
  let analysis := _analyzeDataStructure (_config client) inputObject in
  let strategy := _selectOptimalStrategy (_config client) analysis in
  optimize (withConfig client (tempConfig (_config client) strategy))
    (RawValue inputObject) intent.

Definition brevity (client : BrevitClient) (rawData : RawData)
    (intent : option string) : option string :=
  match rawData with
  | RawValue (VStr s) =>
      if looksLikeJson s then
        match JSON_parse s with
        | Some v => brevityObject client v intent
        | None => Some (brevityText client s intent)
        end
      else Some (brevityText client s intent)
  | RawValue ((VObj _ | VArr _) as v) =>
      if namedBuffer v then Some (_imageOptimizer client rawData intent)
      else brevityObject client v intent
  | RawBinary _ => Some (_imageOptimizer client rawData intent)
  | RawValue v => String_of v
  end.

End Client.

(** ** Vocabulary of the statements *)

(** The lines [_flatten] pushes for [node] under [prefix], [None] when it
    throws. *)
Definition linesOf (node : value) (prefix : string) : option (list string) :=
  _flatten node prefix [].

(** The label of a scalar line: [value] stands for the empty prefix. *)
Definition scalarLabel (prefix : string) : string :=
  if Js.truthy prefix then prefix else "value".

(** An item that is an object with as many keys as [firstKeys] and the same
    key set, in any order. *)
Definition sameKeys (firstKeys : list string) (item : value) : Prop :=
  ∃ entries, item = VObj entries
    ∧ length (keysOf entries) = length firstKeys
    ∧ ∀ k, k ∈ keysOf entries ↔ k ∈ firstKeys.

(** A cell of a tabular row: the escaped text of the member, [null] for a
    member that is [null] or absent, [None] for a member that does not
    print. *)
Definition cellText (item : value) (key : string) : option string :=
  match getMember item key with
  | None | Some VNull => Some "null"
  | Some v => _escapeValue v
  end.

(** [String(v)] returns: [v] is not an object with an own [toString] member,
    nor an array that holds one, at any depth of arrays. *)
Fixpoint prints (v : value) : bool :=
  match v with
  | VObj entries => negb (bool_decide ("toString" ∈ keysOf entries))
  | VArr items => forallb prints items
  | _ => true
  end.

(** Every cell of the row of [item] prints. *)
Definition rowPrints (keys : list string) (item : value) : bool :=
  forallb (fun key => prints (orNull (getMember item key))) keys.

(** Every cell of every tabular array of a tree prints. *)
Fixpoint cellsPrint (v : value) : bool :=
  match v with
  | VObj entries => forallb (fun '(_, x) => cellsPrint x) entries
  | VArr items =>
      match _isUniformObjectArray items with
      | Some keys => forallb (rowPrints keys) items
      | None => if _isPrimitiveArray items then true else forallb cellsPrint items
      end
  | _ => true
  end.

(** The results of a sequence of calls that push to one array: their lines
    in order, and [None] when one of the calls throws. *)
Definition inSequence (results : list (option (list string))) : option (list string) :=
  (fun lines => concat lines) <$> mapM id results.

(** The escaping rule in the words of the format: the text between two
    double quotes, each inner double quote preceded by a backslash. *)
Definition quotedText (str : string) : string :=
  String.string_of_list_ascii
    ([Js.dquote]
     ++ flat_map (fun c => if decide (c = Js.dquote) then [Js.backslash; Js.dquote] else [c])
          (String.list_ascii_of_string str)
     ++ [Js.dquote]).

(** The net-savings test of [abbreviateStep]. *)
Definition netBeneficial (prefix abbr : string) (count : nat) : bool :=
  (definitionCost prefix abbr <? savings prefix abbr count)%Z.

(** The variables of the loop when it reaches the candidate at index [i]. *)
Definition stateAfter (entries : list (string * nat)) (i : nat) : option abbrState :=
  abbreviateAll initialState (take i entries).

(** The alias [_generateAbbreviation] returns for the candidate at index
    [i] of the run over [entries]. *)
Definition aliasAt (entries : list (string * nat)) (i : nat) : option string :=
  st ← stateAfter entries i;
  e ← entries !! i;
  fst <$> _generateAbbreviation e.1 (abbrCounter st) (usedAbbrs st).

(** What the candidate [e] at index [i] adds to the table: itself with its
    alias when the test accepts it, nothing otherwise. *)
Definition acceptedAt (entries : list (string * nat)) (i : nat) (e : string * nat)
    : list (string * string) :=
  match aliasAt entries i with
  | Some abbr => if netBeneficial e.1 abbr e.2 then [(e.1, abbr)] else []
  | None => []
  end.

Definition lineOfEntry (pa : string * string) : string := definitionLine pa.1 pa.2.

(** The reading of "a rejected candidate consumes no alias": the set of
    used aliases is after a rejected candidate what it was before. *)
Definition rejectionConsumesNoAlias : Prop :=
  ∀ (st st' : abbrState) (prefix : string) (count : nat) (abbr : string)
    (used : gset string),
    _generateAbbreviation prefix (abbrCounter st) (usedAbbrs st) = Some (abbr, used) →
    netBeneficial prefix abbr count = false →
    abbreviateStep st (prefix, count) = Some st' →
    usedAbbrs st' = usedAbbrs st.

(** A prefix whose first segment is not empty: it does not start with a dot
    and is not empty. *)
Definition startsPlain (prefix : string) : Prop :=
  ∃ c r, prefix = String c r ∧ c ≠ "."%char.

(** An object as JavaScript has it: no key twice. Other values are
    unconstrained. *)
Definition distinctKeys (item : value) : Prop :=
  match item with
  | VObj entries => NoDup (keysOf entries)
  | _ => True
  end.

(** The keys that can begin a path: a key of the root object, or of an
    object reached from the root through empty keys only, is empty or does
    not start with a dot. *)
Fixpoint plainRoot (node : value) : Prop :=
  match node with
  | VObj entries =>
      (fix go (es : list (string * value)) : Prop :=
         match es with
         | [] => True
         | (key, v) :: es' =>
             (if Js.truthy key then Js.startsWith key "." = false else plainRoot v)
             ∧ go es'
         end) entries
  | _ => True
  end.

(** An object whose first key starts with a dot. *)
Definition dottedKey : value :=
  VObj [(".a", VObj [("b", VNum "1"); ("c", VNum "2")])].

(** The order of the comparator: a greater count first, and among equal
    counts a prefix that is not longer. *)
Definition precedes (x y : string * nat) : Prop :=
  y.2 < x.2 ∨ (y.2 = x.2 ∧ String.length x.1 ≤ String.length y.1).

(** The configuration with another JSON mode. *)
Definition withJsonMode (m : JsonOptimizationMode) (cfg : ClientConfig) : ClientConfig :=
  {| jsonMode := m; textMode := textMode cfg; imageMode := imageMode cfg;
     jsonPathsToKeep := jsonPathsToKeep cfg;
     longTextThreshold := longTextThreshold cfg;
     encoderOptions := encoderOptions cfg |}.

(** The two strategies that are not [Flatten] and can be selected. *)
Definition textStrategy (cfg : ClientConfig) : Strategy :=
  {| name := "TextOptimization"; strategyJsonMode := None;
     strategyTextMode := Some (textMode cfg); strategyImageMode := None;
     score := 90; reason := "Long text detected - summarization recommended" |}.

Definition imageStrategy (cfg : ClientConfig) : Strategy :=
  {| name := "ImageOptimization"; strategyJsonMode := None;
     strategyTextMode := None; strategyImageMode := Some (imageMode cfg);
     score := 100; reason := "Image data detected - OCR recommended" |}.

(** Measures of a tree, by recursion on the tree: its arrays, its objects,
    the characters of its strings, its height, and whether one of its arrays
    passes a test. *)
Fixpoint arraysIn (v : value) : nat :=
  match v with
  | VArr items => 1 + sum_list (List.map arraysIn items)
  | VObj entries => sum_list (List.map (fun '(_, x) => arraysIn x) entries)
  | _ => 0
  end.

Fixpoint objectsIn (v : value) : nat :=
  match v with
  | VArr items => sum_list (List.map objectsIn items)
  | VObj entries => 1 + sum_list (List.map (fun '(_, x) => objectsIn x) entries)
  | _ => 0
  end.

Fixpoint textIn (v : value) : nat :=
  match v with
  | VStr s => String.length s
  | VArr items => sum_list (List.map textIn items)
  | VObj entries => sum_list (List.map (fun '(_, x) => textIn x) entries)
  | _ => 0
  end.

Definition heightAbove (hs : list nat) : nat :=
  foldr (fun h acc => Nat.max (S h) acc) 0 hs.

Fixpoint heightOf (v : value) : nat :=
  match v with
  | VArr items => heightAbove (List.map heightOf items)
  | VObj entries => heightAbove (List.map (fun '(_, x) => heightOf x) entries)
  | _ => 0
  end.

Fixpoint anyArray (test : list value → bool) (v : value) : bool :=
  match v with
  | VArr items => test items || existsb (anyArray test) items
  | VObj entries => existsb (fun '(_, x) => anyArray test x) entries
  | _ => false
  end.

Definition isUniform (items : list value) : bool :=
  match _isUniformObjectArray items with
  | Some _ => true
  | None => false
  end.

(** The objects of a tree other than the tree itself. *)
Definition objectsInside (v : value) : nat :=
  match v with
  | VObj _ => objectsIn v - 1
  | _ => objectsIn v
  end.

(** The analysis after a subtree [v] met at depth [d], in terms of the
    measures of [v]. *)
Definition measured (v : value) (d : nat) (a : Analysis) : Analysis :=
  {| type := type a;
     depth := Nat.max (depth a) (d + heightOf v);
     hasUniformArrays := hasUniformArrays a || anyArray isUniform v;
     hasPrimitiveArrays := hasPrimitiveArrays a || anyArray _isPrimitiveArray v;
     hasNestedObjects :=
       hasNestedObjects a
       || (if 0 <? d then 0 <? objectsIn v else 0 <? objectsInside v);
     textLength := textLength a + textIn v;
     arrayCount := arrayCount a + arraysIn v;
     objectCount := objectCount a + objectsIn v;
     complexity := complexity a |}.

(** The same after the subtrees [vs], all met at depth [d + 1]. *)
Definition measuredAll (vs : list value) (d : nat) (a : Analysis) : Analysis :=
  {| type := type a;
     depth := Nat.max (depth a)
                (foldr (fun x acc => Nat.max (S d + heightOf x) acc) 0 vs);
     hasUniformArrays := hasUniformArrays a || existsb (anyArray isUniform) vs;
     hasPrimitiveArrays :=
       hasPrimitiveArrays a || existsb (anyArray _isPrimitiveArray) vs;
     hasNestedObjects :=
       hasNestedObjects a || existsb (fun x => 0 <? objectsIn x) vs;
     textLength := textLength a + sum_list (List.map textIn vs);
     arrayCount := arrayCount a + sum_list (List.map arraysIn vs);
     objectCount := objectCount a + sum_list (List.map objectsIn vs);
     complexity := complexity a |}.

(** A path that continues the prefix [k] with a dot. *)
Definition extendsPrefix (k path : string) : bool := Js.startsWith path (k +:+ ".").

(** ** Example inputs *)

Definition itemsReordered : list value :=
  [VObj [("sku", VStr "A-88"); ("qty", VNum "1")];
   VObj [("qty", VNum "2"); ("sku", VStr "T-22")]].

Definition friends : value :=
  VObj [("friends", VArr [VStr "ana"; VStr "luis"; VStr "sam"])].

Definition emptyItems : value := VObj [("items", VArr [])].

Definition emptyItemsAndCount : value := VObj [("items", VArr []); ("n", VNum "1")].

Definition fourFields : value :=
  VObj [("a", VNum "1"); ("b", VNum "2"); ("c", VNum "3"); ("d", VNum "4")].

(** Two keys with the same first letter, each repeated four times. *)
Definition berries : value := VObj [("berry", fourFields); ("banana", fourFields)].

(** A key too short to be worth an alias, ahead of a longer one with the
    same first letter. *)
Definition shortAndLong : value := VObj [("b", fourFields); ("banana", fourFields)].

Definition configPaths : list string :=
  ["config.a"; "config.b"; "config.c"; "config.d"; "id.x"; "id.y"].

Definition orderPaths : list string :=
  ["order.id"; "order.status"; "order.customer.name"; "order.customer.email";
   "order.customer.phone"; "order.customer.city"; "order.customer.zip"].


(** A table with a cell that has an own [toString] member. *)
Definition toStringCell : value :=
  VObj [("rows", VArr [VObj [("cfg", VObj [("toString", VNum "1")])]])].


(** * Properties *)

(** ** Induction on values *)

Section ValueInduction.
Variable P : value → Prop.
Hypothesis Hnull : P VNull.
Hypothesis Hbool : ∀ b, P (VBool b).
Hypothesis Hnum : ∀ repr, P (VNum repr).
Hypothesis Hstr : ∀ s, P (VStr s).
Hypothesis Hobj : ∀ entries, Forall (fun kv => P kv.2) entries → P (VObj entries).
Hypothesis Harr : ∀ items, Forall P items → P (VArr items).

Fixpoint value_ind (v : value) : P v :=
  match v with
  | VNull => Hnull
  | VBool b => Hbool b
  | VNum repr => Hnum repr
  | VStr s => Hstr s
  | VObj entries =>
      Hobj entries
        ((fix go (es : list (string * value)) : Forall (fun kv => P kv.2) es :=
            match es with
            | [] => @List.Forall_nil _ _
            | (k, x) :: es' => @List.Forall_cons _ (fun kv => P kv.2) (k, x) es' (value_ind x) (go es')
            end) entries)
  | VArr items =>
      Harr items
        ((fix go (l : list value) : Forall P l :=
            match l with
            | [] => @List.Forall_nil _ _
            | x :: l' => @List.Forall_cons _ P x l' (value_ind x) (go l')
            end) items)
  end.
End ValueInduction.

(** ** Strings *)

Lemma append_cons (x : ascii) (a b : string) : String x a +:+ b = String x (a +:+ b).
Proof. reflexivity. Qed.

Lemma append_nil_l (b : string) : EmptyString +:+ b = b.
Proof. reflexivity. Qed.

Lemma append_assoc (a b c : string) : (a +:+ b) +:+ c = a +:+ b +:+ c.
Proof.
  induction a as [|x a IH]; [done|]. rewrite !append_cons. by rewrite IH.
Qed.

Lemma append_nil_r (a : string) : a +:+ EmptyString = a.
Proof.
  induction a as [|x a IH]; [done|]. rewrite append_cons. by rewrite IH.
Qed.

Lemma length_append (a b : string) :
  String.length (a +:+ b) = String.length a + String.length b.
Proof.
  induction a as [|x a IH]; [done|]. rewrite append_cons. simpl. by rewrite IH.
Qed.

Lemma truthy_append_r (a b : string) : Js.truthy b = true → Js.truthy (a +:+ b) = true.
Proof. destruct a; [done|]. intros _. reflexivity. Qed.

Lemma truthy_indexPrefix (prefix : string) (i : nat) :
  Js.truthy (indexPrefix prefix i) = true.
Proof. unfold indexPrefix. by apply truthy_append_r. Qed.

Lemma includes_spec (c : ascii) (s : string) :
  Js.includes c s = true ↔ c ∈ String.list_ascii_of_string s.
Proof.
  induction s as [|a s IH]; simpl.
  - split; [done|]. by intros ?%elem_of_nil.
  - rewrite elem_of_cons. destruct (decide (a = c)) as [->|Hne].
    + split; auto.
    + rewrite IH. split; [auto|]. intros [->|H]; [done|exact H].
Qed.

Lemma escapeQuotes_spec (s : string) :
  String.list_ascii_of_string (Js.escapeQuotes s)
  = flat_map (fun c => if decide (c = Js.dquote) then [Js.backslash; Js.dquote] else [c])
      (String.list_ascii_of_string s).
Proof.
  induction s as [|a s IH]; simpl; [done|].
  destruct (decide (a = Js.dquote)); simpl; by rewrite IH.
Qed.

Lemma list_ascii_of_append (a b : string) :
  String.list_ascii_of_string (a +:+ b) = String.list_ascii_of_string a ++ String.list_ascii_of_string b.
Proof.
  induction a as [|x a IH]; [done|]. rewrite append_cons. simpl. by rewrite IH.
Qed.

Lemma quotedText_escape (str : string) :
  String Js.dquote (Js.escapeQuotes str) +:+ String Js.dquote EmptyString = quotedText str.
Proof.
  unfold quotedText. rewrite <- escapeQuotes_spec.
  rewrite <- (String.string_of_list_ascii_of_string
                (String Js.dquote (Js.escapeQuotes str) +:+ String Js.dquote EmptyString)).
  f_equal. by rewrite list_ascii_of_append.
Qed.

(** ** The flattening appends, and throws where a call it makes throws *)

Lemma flatten_array (items : list value) (prefix : string) (output : list string) :
  _flatten (VArr items) prefix output
  = match _isUniformObjectArray items with
    | Some _ =>
        match _formatTabularArray items prefix with
        | Some line => Some (output ++ [line])
        | None => None
        end
    | None =>
        if _isPrimitiveArray items then
          match _formatPrimitiveArray items prefix with
          | Some line => Some (output ++ [line])
          | None => None
          end
        else flattenItems prefix items 0 output
    end.
Proof. reflexivity. Qed.

Lemma flatten_object (entries : list (string * value)) (prefix : string)
    (output : list string) :
  _flatten (VObj entries) prefix output = flattenEntries prefix entries output.
Proof. reflexivity. Qed.

Lemma flattenEntries_lines (prefix : string) (es : list (string * value)) :
  Forall (fun kv => ∀ p o, _flatten kv.2 p o
                           = (fun lines => o ++ lines) <$> _flatten kv.2 p []) es →
  ∀ o, flattenEntries prefix es o
       = (fun lines => o ++ lines) <$> flattenEntries prefix es [].
Proof.
  induction 1 as [|[key v] es' Hv _ IH]; intros o.
  - simpl. by rewrite app_nil_r.
  - simpl in Hv. cbn [flattenEntries]. rewrite (Hv (fieldPrefix prefix key) o).
    destruct (_flatten v (fieldPrefix prefix key) []) as [l1|]; [|done].
    cbn [fmap option_fmap option_map app]. rewrite (IH (o ++ l1)), (IH l1).
    destruct (flattenEntries prefix es' []) as [l2|]; [|done].
    cbn [fmap option_fmap option_map]. by rewrite app_assoc.
Qed.

Lemma flattenItems_lines (prefix : string) (l : list value) :
  Forall (fun v => ∀ p o, _flatten v p o
                          = (fun lines => o ++ lines) <$> _flatten v p []) l →
  ∀ index o, flattenItems prefix l index o
             = (fun lines => o ++ lines) <$> flattenItems prefix l index [].
Proof.
  induction 1 as [|v l' Hv _ IH]; intros index o.
  - simpl. by rewrite app_nil_r.
  - cbn [flattenItems]. rewrite (Hv (indexPrefix prefix index) o).
    destruct (_flatten v (indexPrefix prefix index) []) as [l1|]; [|done].
    cbn [fmap option_fmap option_map app]. rewrite (IH (S index) (o ++ l1)), (IH (S index) l1).
    destruct (flattenItems prefix l' (S index) []) as [l2|]; [|done].
    cbn [fmap option_fmap option_map]. by rewrite app_assoc.
Qed.

Lemma flatten_acc (node : value) :
  ∀ prefix output,
    _flatten node prefix output = (fun lines => output ++ lines) <$> linesOf node prefix.
Proof.
  unfold linesOf.
  induction node as [| b | repr | s | entries IH | items IH] using value_ind;
    intros prefix output; try reflexivity.
  - by destruct b.
  - rewrite !flatten_object. by apply flattenEntries_lines.
  - rewrite !flatten_array. destruct (_isUniformObjectArray items).
    { by destruct (_formatTabularArray items prefix). }
    destruct (_isPrimitiveArray items).
    { by destruct (_formatPrimitiveArray items prefix). }
    by apply flattenItems_lines.
Qed.

Lemma flattenEntries_acc (prefix : string) (es : list (string * value)) (o : list string) :
  flattenEntries prefix es o = (fun lines => o ++ lines) <$> flattenEntries prefix es [].
Proof.
  apply flattenEntries_lines, Forall_forall. intros kv _ p o'. apply flatten_acc.
Qed.

Lemma flattenItems_acc (prefix : string) (l : list value) (index : nat) (o : list string) :
  flattenItems prefix l index o
  = (fun lines => o ++ lines) <$> flattenItems prefix l index [].
Proof.
  apply flattenItems_lines, Forall_forall. intros v _ p o'. apply flatten_acc.
Qed.

Lemma inSequence_cons (r : option (list string)) (rs : list (option (list string))) :
  inSequence (r :: rs) = l1 ← r; l2 ← inSequence rs; Some (l1 ++ l2).
Proof.
  unfold inSequence. destruct r as [l1|]; [|done]. simpl.
  by destruct (mapM id rs).
Qed.

Lemma inSequence_Some (rs : list (option (list string))) (lines : list string) :
  inSequence rs = Some lines ↔ ∃ ls, rs = List.map Some ls ∧ lines = concat ls.
Proof.
  revert lines. induction rs as [|r rs IH]; intros lines.
  - split.
    + intros [= <-]. by exists [].
    + intros (ls & Hls & ->). by destruct ls.
  - rewrite inSequence_cons. split.
    + destruct r as [l1|]; [|done]. simpl.
      destruct (inSequence rs) as [l2|] eqn:Hrs; [|done]. intros [= <-].
      destruct (proj1 (IH l2) eq_refl) as (ls & -> & ->). by exists (l1 :: ls).
    + intros (ls & Hls & ->). destruct ls as [|l1 ls]; [done|].
      injection Hls as -> ->. simpl.
      by rewrite (proj2 (IH (concat ls)) (ex_intro _ ls (conj eq_refl eq_refl))).
Qed.

Lemma inSequence_is_Some (rs : list (option (list string))) :
  is_Some (inSequence rs) ↔ Forall is_Some rs.
Proof.
  induction rs as [|r rs IH].
  - split; [constructor|by eexists].
  - rewrite inSequence_cons, Forall_cons, <- IH. destruct r as [l1|]; simpl.
    + destruct (inSequence rs); simpl; split.
      * intros _. split; by eexists.
      * intros _. by eexists.
      * by intros [? [=]].
      * by intros [_ [? [=]]].
    + split; [by intros [? [=]]|by intros [[? [=]] _]].
Qed.

Lemma inSequence_Forall (P : string → Prop) (rs : list (option (list string)))
    (lines : list string) :
  inSequence rs = Some lines →
  Forall (fun r => ∀ ls, r = Some ls → Forall P ls) rs →
  Forall P lines.
Proof.
  intros (ls & -> & ->)%inSequence_Some Hall. apply Forall_concat, Forall_forall.
  intros l Hl. rewrite Forall_forall in Hall. apply (Hall (Some l)); [|done].
  apply list_elem_of_In, in_map, list_elem_of_In, Hl.
Qed.

Lemma linesOf_object (entries : list (string * value)) (prefix : string) :
  linesOf (VObj entries) prefix
  = inSequence (List.map (fun kv => linesOf kv.2 (fieldPrefix prefix kv.1)) entries).
Proof.
  unfold linesOf at 1. rewrite flatten_object.
  induction entries as [|[key v] es IH]; [done|].
  cbn [List.map fst snd]. rewrite inSequence_cons, <- IH.
  cbn [flattenEntries]. unfold linesOf.
  destruct (_flatten v (fieldPrefix prefix key) []) as [l1|]; [|done].
  simpl. rewrite flattenEntries_acc. by destruct (flattenEntries prefix es []).
Qed.

Lemma flattenItems_sequence (prefix : string) (l : list value) (index : nat) :
  flattenItems prefix l index []
  = inSequence (imap (fun i item => linesOf item (indexPrefix prefix (index + i))) l).
Proof.
  revert index. induction l as [|v l IH]; intros index; [done|].
  cbn [imap]. rewrite inSequence_cons, Nat.add_0_r.
  rewrite (imap_ext _ (fun i item => linesOf item (indexPrefix prefix (S index + i))));
    [|intros i x _; simpl; do 2 f_equal; lia].
  rewrite <- IH. cbn [flattenItems]. unfold linesOf.
  destruct (_flatten v (indexPrefix prefix index) []) as [l1|]; [|done].
  simpl. rewrite flattenItems_acc. by destruct (flattenItems prefix l (S index) []).
Qed.

Lemma linesOf_scalar (v : value) (prefix : string) :
  isObjectLike v = false →
  ∃ text, String_of v = Some text
          ∧ linesOf v prefix = Some [scalarLabel prefix +:+ ":" +:+ text].
Proof. destruct v as [| [] | | | |]; try done; intros _; by eexists. Qed.

Lemma escapeValue_scalar (v : value) : isObjectLike v = false → is_Some (_escapeValue v).
Proof. destruct v as [| [] | | | |]; try done; intros _; by eexists. Qed.

(** ** Classification and the compact formats *)

Lemma uniformLoop_sameKeys (firstKeys : list string) (rest : list value) :
  Forall (sameKeys firstKeys) rest →
  uniformLoop firstKeys (list_to_set firstKeys) rest = true.
Proof.
  induction 1 as [|item rest (entries & -> & Hlen & Hkeys) _ IH]; [done|].
  simpl. rewrite Hlen, Nat.eqb_refl. simpl.
  assert (forallb (fun key => bool_decide (key ∈ (list_to_set firstKeys : gset string)))
            (keysOf entries) = true) as ->; [|exact IH].
  apply forallb_forall. intros k Hin. apply bool_decide_eq_true.
  apply elem_of_list_to_set, Hkeys, list_elem_of_In, Hin.
Qed.

Lemma tabularRow_cells (keys : list string) (item : value) :
  tabularRow keys item = Js.join "," <$> mapM (cellText item) keys.
Proof.
  unfold tabularRow. f_equal. apply mapM_ext. intros key. unfold cellText.
  destruct (getMember item key) as [[]|]; reflexivity.
Qed.

Lemma primitiveLoop_scalars (rest : list value) :
  Forall (fun v => isObjectLike v = false) rest → primitiveLoop rest = true.
Proof. induction 1 as [|v rest Hv _ IH]; [done|]. simpl. by rewrite Hv. Qed.

(** C7: a non-empty array of scalars ([null] included) is emitted as the one
    line [prefix[n]:v1,...,vn], every value through [_escapeValue], which
    returns for each of them; the [friends] example gives
    [friends[3]:ana,luis,sam]. *)
Theorem primitive_array_is_one_line :
  (∀ (arr : list value) (prefix : string) (output : list string),
     arr ≠ [] →
     Forall (fun v => isObjectLike v = false) arr →
     _isUniformObjectArray arr = None
     ∧ _isPrimitiveArray arr = true
     ∧ ∃ values,
         mapM _escapeValue arr = Some values
         ∧ _flatten (VArr arr) prefix output
           = Some (output ++
               [prefix +:+ "[" +:+ pretty (length arr) +:+ "]:"
                  +:+ Js.join "," values]))
  ∧ _flatten friends EmptyString [] = Some ["friends[3]:ana,luis,sam"]
  ∧ _flattenObject defaultConfig friends = Some "friends[3]:ana,luis,sam".
Proof.
  split; [|split; vm_compute; reflexivity].
  intros [|first rest] prefix output Hne Hall; [done|].
  assert (is_Some (mapM _escapeValue (first :: rest))) as [values Hvalues].
  { apply mapM_is_Some. eapply Forall_impl; [exact Hall|].
    intros v Hv. by apply escapeValue_scalar. }
  apply Forall_cons in Hall as [Hfirst Hrest].
  assert (_isUniformObjectArray (first :: rest) = None) as Hu by (by destruct first).
  assert (_isPrimitiveArray (first :: rest) = true) as Hp.
  { simpl. rewrite Hfirst. by apply primitiveLoop_scalars. }
  split; [exact Hu|]. split; [exact Hp|]. exists values. split; [exact Hvalues|].
  rewrite flatten_array, Hu, Hp. unfold _formatPrimitiveArray. by rewrite Hvalues.
Qed.

Lemma primitive_array_is_one_line_witness :
  _flatten (VArr [VStr "a,b"; VNull; VNum "7"]) "xs" []
  = Some ["xs[3]:" +:+ String Js.dquote "a,b" +:+ String Js.dquote ",null,7"].
Proof.
  destruct (proj1 primitive_array_is_one_line [VStr "a,b"; VNull; VNum "7"] "xs" [])
    as (_ & _ & values & Hvalues & Hflat).
  - discriminate.
  - repeat constructor.
  - rewrite Hflat. vm_compute in Hvalues. injection Hvalues as <-. vm_compute. reflexivity.
Defined.

(** C6: in the comma-joined forms (the primitive-array line and the tabular
    row) every value goes through [_escapeValue], which wraps a text holding
    a comma, a line feed or a double quote in double quotes with the inner
    double quotes backslash-escaped and leaves any other text as it is; the
    single-value line carries the text of the scalar unchanged. *)
Theorem escaping_only_when_comma_joined (v : value) (str : string) (arr : list value)
    (keys : list string) (item : value) (prefix : string) (output : list string) :
  (needsQuoting str = true
   ↔ ","%char ∈ String.list_ascii_of_string str
     ∨ Js.lf ∈ String.list_ascii_of_string str
     ∨ Js.dquote ∈ String.list_ascii_of_string str)
  ∧ _escapeValue v
    = (fun text => if needsQuoting text then quotedText text else text) <$> String_of v
  ∧ _formatPrimitiveArray arr prefix
    = (fun values => prefix +:+ "[" +:+ pretty (length arr) +:+ "]:"
                       +:+ Js.join "," values) <$> mapM _escapeValue arr
  ∧ tabularRow keys item = Js.join "," <$> mapM (cellText item) keys
  ∧ (isObjectLike v = false →
     ∃ text, String_of v = Some text
       ∧ _escapeValue v = Some (if needsQuoting text then quotedText text else text)
       ∧ _flatten v prefix output
         = Some (output ++ [scalarLabel prefix +:+ ":" +:+ text])).
Proof.
  assert (_escapeValue v
          = (fun text => if needsQuoting text then quotedText text else text)
              <$> String_of v) as Hescape.
  { unfold _escapeValue. destruct (String_of v) as [text|]; [|done]. simpl.
    destruct (needsQuoting text); [|done]. by rewrite quotedText_escape. }
  split; [|split; [|split; [|split]]].
  - unfold needsQuoting. rewrite !orb_true_iff, !includes_spec. tauto.
  - exact Hescape.
  - unfold _formatPrimitiveArray. by destruct (mapM _escapeValue arr).
  - apply tabularRow_cells.
  - intros Hscalar. destruct (linesOf_scalar v prefix Hscalar) as (text & Htext & Hlines).
    exists text. split; [exact Htext|]. split.
    + by rewrite Hescape, Htext.
    + by rewrite flatten_acc, Hlines.
Qed.

Lemma escaping_only_when_comma_joined_witness :
  _flatten (VStr "a,b") "note" [] = Some ["note:a,b"].
Proof.
  destruct (escaping_only_when_comma_joined (VStr "a,b") "a,b" [] [] VNull "note" [])
    as (_ & _ & _ & _ & Hflat).
  destruct (Hflat eq_refl) as (text & [= <-] & _ & ->). reflexivity.
Defined.

(** C1: an array of one object is uniform whatever its cell holds, and the
    cell goes to [String] through [_escapeValue]. A cell that is an object
    with an own [toString] member makes [String] throw: [_flatten] pushes no
    line and the facade throws, with the abbreviations and without them.
    The same table is emitted when the member has another key. *)
Theorem tabular_cell_with_toString_throws :
  _isUniformObjectArray [VObj [("cfg", VObj [("toString", VNum "1")])]] = Some ["cfg"]
  ∧ String_of (VObj [("toString", VNum "1")]) = None
  ∧ _flatten toStringCell EmptyString [] = None
  ∧ _flattenObject defaultConfig toStringCell = None
  ∧ _flattenObject {| enableAbbreviations := false; abbreviationThreshold := 2 |}
      toStringCell = None
  ∧ _flattenObject defaultConfig
      (VObj [("rows", VArr [VObj [("cfg", VObj [("label", VNum "1")])]])])
    = Some ("rows[1]{cfg}:" +:+ Js.nl +:+ "[object Object]").
Proof. repeat split; vm_compute; reflexivity. Qed.


(** C5: an empty array is neither uniform nor primitive, and the mixed
    fallback pushes nothing for it: no empty-array literal reaches the
    output, and the key of the array is lost. *)
Theorem empty_array_emits_nothing :
  _isUniformObjectArray [] = None
  ∧ _isPrimitiveArray [] = false
  ∧ (∀ prefix output, _flatten (VArr []) prefix output = Some output)
  ∧ _flattenObject defaultConfig emptyItems = Some EmptyString
  ∧ _flattenObject defaultConfig emptyItemsAndCount = Some "n:1".
Proof. repeat split; vm_compute; reflexivity. Qed.

(** C10: the object without keys encodes to the empty string: [_flatten]
    pushes no line, no definition is generated, and the join of no line is
    the empty string. *)
Theorem empty_object_encodes_to_empty_string (cfg : BrevitConfig) :
  _flatten (VObj []) EmptyString [] = Some []
  ∧ _generateAbbreviations cfg [] = Some ([], [])
  ∧ _flattenObject cfg (VObj []) = Some EmptyString.
Proof.
  assert (_generateAbbreviations cfg [] = Some ([], [])) as Hgen.
  { unfold _generateAbbreviations. by destruct (enableAbbreviations cfg). }
  split; [reflexivity|]. split; [exact Hgen|].
  unfold _flattenObject. simpl. by rewrite Hgen.
Qed.

(** ** Insertion-ordered maps keep their keys distinct *)

Lemma mapSet_fresh {V : Type} (k : string) (v : V) (m : list (string * V)) :
  k ∉ m.*1 → mapSet k v m = m ++ [(k, v)].
Proof.
  induction m as [|[k' v'] m IH]; simpl; [done|].
  rewrite not_elem_of_cons. intros [Hne Hm].
  destruct (decide (k' = k)) as [->|_]; [done|]. by rewrite IH.
Qed.

Lemma mapSet_present {V : Type} (k : string) (v : V) (m : list (string * V)) :
  k ∈ m.*1 → (mapSet k v m).*1 = m.*1.
Proof.
  induction m as [|[k' v'] m IH]; simpl.
  - by intros ?%elem_of_nil.
  - destruct (decide (k' = k)) as [->|Hne]; [done|].
    rewrite elem_of_cons. intros [->|Hin]; [done|].
    rewrite !fmap_cons. f_equal. by apply IH.
Qed.

Lemma mapSet_NoDup {V : Type} (k : string) (v : V) (m : list (string * V)) :
  NoDup m.*1 → NoDup (mapSet k v m).*1.
Proof.
  intros Hm. destruct (decide (k ∈ m.*1)) as [Hin|Hout].
  - by rewrite mapSet_present.
  - rewrite mapSet_fresh by done. rewrite fmap_app. simpl.
    apply NoDup_app. split; [done|]. split; [|apply NoDup_singleton].
    intros x Hx ->%list_elem_of_singleton. done.
Qed.

Lemma countPath_NoDup (counts : list (string * nat)) (path : string) :
  NoDup counts.*1 → NoDup (countPath counts path).*1.
Proof.
  unfold countPath. generalize (seq 1 (length (Js.split "." path) - 1)).
  intros l. revert counts. induction l as [|i l IH]; intros counts H; simpl; [done|].
  apply IH. by apply mapSet_NoDup.
Qed.

Lemma prefixCounts_NoDup (paths : list string) : NoDup (prefixCounts paths).*1.
Proof.
  unfold prefixCounts.
  assert (∀ counts : list (string * nat),
            NoDup counts.*1 → NoDup (foldl countPath counts paths).*1) as H.
  { induction paths as [|path paths IH]; intros counts Hc; simpl; [done|].
    apply IH. by apply countPath_NoDup. }
  apply H. constructor.
Qed.

Lemma filter_keys_NoDup (f : string * nat → bool) (l : list (string * nat)) :
  NoDup l.*1 → NoDup (List.filter f l).*1.
Proof.
  induction l as [|[k c] l IH]; simpl; [done|].
  rewrite NoDup_cons. intros [Hk Hl]. destruct (f (k, c)); [|by apply IH].
  simpl. apply NoDup_cons. split; [|by apply IH].
  intros Hin. apply Hk. apply list_elem_of_fmap in Hin as ([k' c'] & -> & Hin).
  apply list_elem_of_In, filter_In in Hin as [Hin _].
  apply list_elem_of_fmap. exists (k', c'). split; [done|]. by apply list_elem_of_In.
Qed.

Lemma insertEntry_Permutation (x : string * nat) (l : list (string * nat)) :
  insertEntry x l ≡ₚ x :: l.
Proof.
  induction l as [|y l IH]; simpl; [done|].
  destruct (compareEntries x y <=? 0)%Z; [done|].
  rewrite IH. apply Permutation_swap.
Qed.

Lemma sortEntries_Permutation (l : list (string * nat)) : sortEntries l ≡ₚ l.
Proof.
  induction l as [|x l IH]; simpl; [done|].
  change (sortEntries (x :: l)) with (insertEntry x (sortEntries l)).
  by rewrite insertEntry_Permutation, IH.
Qed.

Lemma compareEntries_total (x y : string * nat) :
  (0 < compareEntries x y)%Z → (compareEntries y x <= 0)%Z.
Proof.
  unfold compareEntries.
  destruct (Nat.eqb_spec y.2 x.2) as [Heq|Hne]; simpl.
  - rewrite Heq, Nat.eqb_refl. simpl. lia.
  - destruct (Nat.eqb_spec x.2 y.2) as [Heq'|_]; [congruence|]. simpl. lia.
Qed.

(** The candidates come out in the order of the comparator. *)
Lemma sortEntries_Sorted (l : list (string * nat)) :
  Sorted (fun x y => (compareEntries x y <= 0)%Z) (sortEntries l).
Proof.
  induction l as [|x l IH]; [constructor|].
  change (sortEntries (x :: l)) with (insertEntry x (sortEntries l)).
  induction IH as [|y l' Hl' IH' Hy]; simpl; [repeat constructor|].
  destruct (Z.leb_spec (compareEntries x y) 0) as [Hle|Hgt].
  - constructor; [by constructor|]. by constructor.
  - constructor; [exact IH'|].
    destruct l' as [|z l'']; simpl.
    + constructor. by apply compareEntries_total.
    + destruct (compareEntries x z <=? 0)%Z.
      * constructor. by apply compareEntries_total.
      * constructor. by inversion Hy.
Qed.

Lemma frequentPrefixes_NoDup (cfg : BrevitConfig) (paths : list string) :
  NoDup (frequentPrefixes cfg paths).*1.
Proof.
  unfold frequentPrefixes. rewrite sortEntries_Permutation.
  apply filter_keys_NoDup, prefixCounts_NoDup.
Qed.

Lemma frequentPrefixes_threshold (cfg : BrevitConfig) (paths : list string)
    (e : string * nat) :
  e ∈ frequentPrefixes cfg paths →
  e ∈ prefixCounts paths ∧ (abbreviationThreshold cfg ≤ Z.of_nat e.2)%Z.
Proof.
  unfold frequentPrefixes. rewrite sortEntries_Permutation.
  intros [Hin Hf]%list_elem_of_In%filter_In. split; [by apply list_elem_of_In|lia].
Qed.

(** ** The run of the abbreviation loop *)

Lemma abbreviateAll_snoc (st : abbrState) (l : list (string * nat)) (e : string * nat) :
  abbreviateAll st (l ++ [e]) = abbreviateAll st l ≫= fun st' => abbreviateStep st' e.
Proof.
  revert st. induction l as [|x l IH]; intros st; simpl.
  - by destruct (abbreviateStep st e).
  - destruct (abbreviateStep st x); [apply IH|done].
Qed.

Lemma aliasAt_app_lt (l : list (string * nat)) (e : string * nat) (i : nat) :
  i < length l → aliasAt (l ++ [e]) i = aliasAt l i.
Proof.
  intros Hi. unfold aliasAt, stateAfter.
  rewrite take_app_le by lia. by rewrite lookup_app_l.
Qed.

Lemma aliasAt_last (l : list (string * nat)) (e : string * nat) (st : abbrState) :
  abbreviateAll initialState l = Some st →
  aliasAt (l ++ [e]) (length l)
  = fst <$> _generateAbbreviation e.1 (abbrCounter st) (usedAbbrs st).
Proof.
  intros Hst. unfold aliasAt, stateAfter.
  rewrite take_app_length, Hst. simpl. by rewrite list_lookup_middle.
Qed.

Lemma imap_acceptedAt_snoc (l : list (string * nat)) (e : string * nat) :
  imap (acceptedAt (l ++ [e])) (l ++ [e])
  = imap (acceptedAt l) l ++ [acceptedAt (l ++ [e]) (length l) e].
Proof.
  rewrite imap_app. simpl. rewrite Nat.add_0_r. f_equal.
  apply imap_ext. intros i x Hix. unfold acceptedAt.
  rewrite aliasAt_app_lt; [done|]. by eapply lookup_lt_Some.
Qed.

Lemma elem_of_accepted (entries : list (string * nat)) (p a : string) :
  (p, a) ∈ concat (imap (acceptedAt entries) entries)
  ↔ ∃ i c, entries !! i = Some (p, c) ∧ aliasAt entries i = Some a
           ∧ netBeneficial p a c = true.
Proof.
  rewrite list_elem_of_In, in_concat. split.
  - intros (l & Hl & Hin). apply list_elem_of_In, elem_of_lookup_imap in Hl
      as (i & [p' c] & -> & Hi).
    unfold acceptedAt in Hin. simpl in Hin.
    destruct (aliasAt entries i) as [a'|] eqn:Ha; [|done].
    destruct (netBeneficial p' a' c) eqn:Hnet; [|done].
    destruct Hin as [[= -> ->]|[]]. by exists i, c.
  - intros (i & c & Hi & Ha & Hnet). exists [(p, a)]. split; [|by left].
    apply list_elem_of_In, elem_of_lookup_imap. exists i, (p, c). split; [|done].
    unfold acceptedAt. simpl. by rewrite Ha, Hnet.
Qed.

Lemma accepted_keys (entries : list (string * nat)) (p : string) :
  p ∈ (concat (imap (acceptedAt entries) entries)).*1 → p ∈ entries.*1.
Proof.
  intros ([p' a] & -> & Hin)%list_elem_of_fmap.
  apply elem_of_accepted in Hin as (i & c & Hi & _ & _).
  apply list_elem_of_fmap. exists (p', c). split; [done|].
  by eapply list_elem_of_lookup_2.
Qed.

Lemma run_characterised (entries : list (string * nat)) :
  NoDup entries.*1 →
  ∀ st, abbreviateAll initialState entries = Some st →
  abbreviationMap st = concat (imap (acceptedAt entries) entries)
  ∧ definitions st = List.map lineOfEntry (abbreviationMap st)
  ∧ NoDup (abbreviationMap st).*1.
Proof.
  induction entries as [|[p c] l IH] using rev_ind; intros Hnd st Hrun.
  - simpl in Hrun. injection Hrun as <-. simpl. repeat split. constructor.
  - rewrite fmap_app in Hnd. apply NoDup_app in Hnd as (Hl & Hfresh & _).
    rewrite abbreviateAll_snoc in Hrun.
    destruct (abbreviateAll initialState l) as [st1|] eqn:Hst1; [|done].
    simpl in Hrun. destruct (IH Hl st1 eq_refl) as (Hmap & Hdefs & Hkeys).
    rewrite imap_acceptedAt_snoc, concat_app. simpl. rewrite app_nil_r.
    assert (p ∉ (abbreviationMap st1).*1) as Hp.
    { rewrite Hmap. intros Hin%accepted_keys. apply (Hfresh p Hin). simpl. by left. }
    rewrite <- Hmap. unfold acceptedAt.
    rewrite (aliasAt_last l (p, c) st1 Hst1). simpl.
    unfold abbreviateStep in Hrun.
    destruct (_generateAbbreviation p (abbrCounter st1) (usedAbbrs st1))
      as [[abbr used]|]; [|done].
    simpl in Hrun |- *. unfold netBeneficial.
    destruct (definitionCost p abbr <? savings p abbr c)%Z;
      injection Hrun as <-; simpl.
    + rewrite (mapSet_fresh _ _ _ Hp), Hdefs. split; [done|].
      split; [by rewrite List.map_app|].
      rewrite fmap_app. apply NoDup_app. split; [done|].
      split; [|apply NoDup_singleton].
      intros x Hx ->%list_elem_of_singleton. done.
    + by rewrite app_nil_r.
Qed.

Lemma netBeneficial_long (p a : string) (c : nat) :
  netBeneficial p a c = true → String.length a + 2 ≤ String.length p.
Proof.
  unfold netBeneficial, definitionCost, savings. intros H%Z.ltb_lt. nia.
Qed.

Lemma abbreviateAll_app (st : abbrState) (l1 l2 : list (string * nat)) :
  abbreviateAll st (l1 ++ l2) = abbreviateAll st l1 ≫= fun st' => abbreviateAll st' l2.
Proof.
  revert st. induction l1 as [|x l1 IH]; intros st; simpl; [done|].
  destruct (abbreviateStep st x); [apply IH|done].
Qed.

Lemma generated_marks_used (prefix : string) (counter : nat) (used used' : gset string)
    (abbr : string) :
  _generateAbbreviation prefix counter used = Some (abbr, used') →
  used' = {[abbr]} ∪ used ∧ (abbr ∉ used ∨ abbr = counterAbbr counter).
Proof.
  unfold _generateAbbreviation. intros H.
  destruct (head (Js.split "." prefix)) as [first|]; [|done]. simpl in H.
  destruct (Js.charAt0 first) as [c|]; [|done]. simpl in H.
  destruct (bool_decide (Js.toLowerCase c ∉ used)) eqn:H1.
  { injection H as <- <-. apply bool_decide_eq_true in H1. auto. }
  match type of H with
  | (if ?b then _ else _) = _ => destruct b eqn:H2
  end.
  - injection H as <- <-. apply andb_true_iff in H2 as [H2 _].
    apply andb_true_iff in H2 as [_ H2]. apply bool_decide_eq_true in H2. auto.
  - injection H as <- <-. auto.
Qed.

Lemma abbreviateStep_used_mono (st st' : abbrState) (e : string * nat) :
  abbreviateStep st e = Some st' → usedAbbrs st ⊆ usedAbbrs st'.
Proof.
  destruct e as [p c]. unfold abbreviateStep. intros H.
  destruct (_generateAbbreviation p (abbrCounter st) (usedAbbrs st))
    as [[abbr used]|] eqn:Hgen; [|done].
  apply generated_marks_used in Hgen as [-> _]. simpl in H.
  destruct (definitionCost p abbr <? savings p abbr c)%Z;
    injection H as <-; simpl; set_solver.
Qed.

Lemma abbreviateAll_used_mono (l : list (string * nat)) (st st' : abbrState) :
  abbreviateAll st l = Some st' → usedAbbrs st ⊆ usedAbbrs st'.
Proof.
  revert st. induction l as [|e l IH]; intros st; simpl.
  - by intros [= ->].
  - destruct (abbreviateStep st e) as [st1|] eqn:H1; [|done].
    intros H. apply abbreviateStep_used_mono in H1. apply IH in H. set_solver.
Qed.

(** Every candidate of a run that returns has received an alias. *)
Lemma run_reaches (entries : list (string * nat)) (st : abbrState) (i : nat)
    (e : string * nat) :
  abbreviateAll initialState entries = Some st →
  entries !! i = Some e →
  ∃ sti abbr used,
    stateAfter entries i = Some sti
    ∧ _generateAbbreviation e.1 (abbrCounter sti) (usedAbbrs sti) = Some (abbr, used)
    ∧ aliasAt entries i = Some abbr
    ∧ stateAfter entries (S i) = abbreviateStep sti e.
Proof.
  intros Hrun Hi.
  assert (stateAfter entries (S i)
          = stateAfter entries i ≫= fun st' => abbreviateStep st' e) as HS.
  { unfold stateAfter. rewrite (take_S_r _ _ _ Hi). apply abbreviateAll_snoc. }
  rewrite <- (take_drop_middle _ _ _ Hi) in Hrun.
  rewrite abbreviateAll_app in Hrun. fold (stateAfter entries i) in Hrun.
  destruct (stateAfter entries i) as [sti|] eqn:Hsti; [|done].
  simpl in Hrun, HS. destruct (abbreviateStep sti e) as [st1|] eqn:Hstep; [|done].
  destruct e as [p c]. unfold abbreviateStep in Hstep.
  destruct (_generateAbbreviation p (abbrCounter sti) (usedAbbrs sti))
    as [[abbr used]|] eqn:Hgen; [|done].
  exists sti, abbr, used. split; [done|]. split; [done|]. split;
    [|rewrite HS; unfold abbreviateStep; by rewrite Hgen].
  unfold aliasAt. rewrite Hsti. simpl. rewrite Hi. simpl. by rewrite Hgen.
Qed.

(** ** Prefixes of strings *)

Lemma startsWith_append (s p : string) :
  Js.startsWith s p = true ↔ ∃ r, s = p +:+ r.
Proof.
  revert s. induction p as [|a p IH]; intros s; simpl.
  - split; [|done]. intros _. by exists s.
  - destruct s as [|b s].
    + split; [done|]. intros [r Hr]. rewrite append_cons in Hr. done.
    + destruct (decide (a = b)) as [->|Hne].
      * rewrite IH. split; intros [r Hr]; exists r.
        -- rewrite append_cons. by rewrite Hr.
        -- rewrite append_cons in Hr. by injection Hr.
      * split; [done|]. intros [r Hr]. rewrite append_cons in Hr.
        injection Hr as -> _. done.
Qed.

Lemma substringFrom_append (p r : string) :
  Js.substringFrom (String.length p) (p +:+ r) = r.
Proof.
  induction p as [|a p IH]; [reflexivity|]. rewrite append_cons. exact IH.
Qed.

Lemma append_same_length (p1 p2 r1 r2 : string) :
  p1 +:+ r1 = p2 +:+ r2 → String.length p1 = String.length p2 → p1 = p2.
Proof.
  revert p2. induction p1 as [|a p1 IH]; intros [|b p2]; simpl; try done.
  rewrite !append_cons. intros [= -> H] [= Hlen]. f_equal. by apply IH.
Qed.

(** ** The longest matching prefix *)

Lemma foldl_bestMatch (path : string) (l : list (string * string)) (best : string * string) :
  let r := foldl (bestMatchStep path) best l in
  (r = best
   ∨ (r ∈ l ∧ Js.startsWith path (r.1 +:+ ".") = true
      ∧ String.length best.1 < String.length r.1))
  ∧ String.length best.1 ≤ String.length r.1
  ∧ ∀ e, e ∈ l → Js.startsWith path (e.1 +:+ ".") = true →
         String.length e.1 ≤ String.length r.1.
Proof.
  revert best. induction l as [|e l IH]; intros best; simpl.
  - split; [by left|]. split; [done|]. by intros e ?%elem_of_nil.
  - destruct (IH (bestMatchStep path best e)) as (Hr & Hle & Hall).
    set (r := foldl (bestMatchStep path) (bestMatchStep path best e) l) in *.
    unfold bestMatchStep in Hr, Hle.
    destruct (Js.startsWith path (e.1 +:+ ".")) eqn:Hm; simpl in Hr, Hle.
    + destruct (String.length best.1 <? String.length e.1) eqn:Hlt.
      * apply Nat.ltb_lt in Hlt. split; [|split].
        -- right. destruct Hr as [->|(Hin & Hmr & Hlen)].
           ++ split; [by left|]. done.
           ++ split; [by right|]. split; [done|lia].
        -- lia.
        -- intros e' [->|Hin]%elem_of_cons He'; [done|by apply Hall].
      * apply Nat.ltb_ge in Hlt. split; [|split].
        -- destruct Hr as [->|(Hin & Hmr & Hlen)]; [by left|].
           right. split; [by right|]. done.
        -- done.
        -- intros e' [->|Hin]%elem_of_cons He'; [lia|by apply Hall].
    + split; [|split].
      * destruct Hr as [->|(Hin & Hmr & Hlen)]; [by left|].
        right. split; [by right|]. done.
      * done.
      * intros e' [->|Hin]%elem_of_cons He'; [congruence|by apply Hall].
Qed.

Lemma NoDup_keys_functional {V : Type} (m : list (string * V)) (k : string) (v1 v2 : V) :
  NoDup m.*1 → (k, v1) ∈ m → (k, v2) ∈ m → v1 = v2.
Proof.
  induction m as [|[k' v'] m IH]; simpl.
  - by intros _ ?%elem_of_nil.
  - rewrite NoDup_cons. intros [Hk Hm] H1 H2.
    apply elem_of_cons in H1 as [[= <- <-]|H1];
      apply elem_of_cons in H2 as [[= ?]|H2]; subst; try done.
    + destruct Hk. apply list_elem_of_fmap. by exists (k, v2).
    + destruct Hk. apply list_elem_of_fmap. by exists (k', v1).
    + by apply IH.
Qed.

(** The table of a call that returns: its keys are distinct, and each was
    accepted by the net-savings test, so it has two characters or more. *)
Lemma generated_table (cfg : BrevitConfig) (paths : list string)
    (tbl : list (string * string)) (defs : list string) :
  _generateAbbreviations cfg paths = Some (tbl, defs) →
  NoDup tbl.*1
  ∧ defs = List.map lineOfEntry tbl
  ∧ (∀ p a, (p, a) ∈ tbl → 2 ≤ String.length p)
  ∧ (enableAbbreviations cfg = true →
     tbl = concat (imap (acceptedAt (frequentPrefixes cfg paths))
                     (frequentPrefixes cfg paths))).
Proof.
  unfold _generateAbbreviations. destruct (enableAbbreviations cfg); simpl.
  - destruct (abbreviateAll initialState (frequentPrefixes cfg paths))
      as [st|] eqn:Hrun; [|done].
    simpl. intros [= <- <-].
    destruct (run_characterised _ (frequentPrefixes_NoDup cfg paths) st Hrun)
      as (Hmap & Hdefs & Hkeys).
    split; [done|]. split; [done|]. split; [|done].
    intros p a. rewrite Hmap. intros (i & c & _ & _ & Hnet)%elem_of_accepted.
    apply netBeneficial_long in Hnet. lia.
  - intros [= <- <-]. split; [constructor|]. split; [done|]. split; [|done].
    by intros p a ?%elem_of_nil.
Qed.

Lemma stateAfter_earlier (entries : list (string * nat)) (i j : nat) (st : abbrState) :
  i ≤ j → stateAfter entries j = Some st →
  ∃ sti, stateAfter entries i = Some sti ∧ usedAbbrs sti ⊆ usedAbbrs st.
Proof.
  unfold stateAfter. intros Hij H.
  rewrite <- (take_drop i (take j entries)), take_take in H.
  replace (i `min` j) with i in H by lia. rewrite abbreviateAll_app in H.
  destruct (abbreviateAll initialState (take i entries)) as [sti|]; [|done].
  simpl in H. exists sti. split; [done|]. by eapply abbreviateAll_used_mono.
Qed.

(** ** When the table is built without a [TypeError] *)

Lemma counterLoop_S (fuel num : nat) (abbr : string) :
  counterLoop (S fuel) num abbr
  = if num <? 26 then Js.fromCharCode (97 + num mod 26) +:+ abbr
    else counterLoop fuel (num / 26 - 1) (Js.fromCharCode (97 + num mod 26) +:+ abbr).
Proof. reflexivity. Qed.

(** The fuel of [counterAbbr] is enough: more fuel gives the same alias. *)
Lemma counterLoop_fuel (fuel1 fuel2 num : nat) (abbr : string) :
  num ≤ fuel1 → num ≤ fuel2 → counterLoop fuel1 num abbr = counterLoop fuel2 num abbr.
Proof.
  revert fuel2 num abbr.
  induction fuel1 as [|fuel1 IH]; intros [|fuel2] num abbr H1 H2; try done.
  - replace num with 0 by lia. reflexivity.
  - replace num with 0 by lia. reflexivity.
  - rewrite !counterLoop_S. destruct (num <? 26) eqn:Hlt; [done|].
    apply Nat.ltb_ge in Hlt. pose proof (Nat.div_lt num 26). apply IH; lia.
Qed.

Lemma split_plain (c : ascii) (r : string) :
  c ≠ "."%char → ∃ h t, Js.split "." (String c r) = String c h :: t.
Proof.
  intros Hc. simpl. destruct (decide (c = "."%char)); [done|].
  destruct (Js.split "." r) as [|h t]; eauto.
Qed.

Lemma join_plain (c : ascii) (h : string) (l : list string) :
  ∃ r, Js.join "." (String c h :: l) = String c r.
Proof. destruct l; simpl; eauto. Qed.

Lemma mapSet_keys {V : Type} (k k' : string) (v : V) (m : list (string * V)) :
  k ∈ (mapSet k' v m).*1 → k = k' ∨ k ∈ m.*1.
Proof.
  destruct (decide (k' ∈ m.*1)) as [Hin|Hout].
  - rewrite mapSet_present by done. auto.
  - rewrite mapSet_fresh by done. rewrite fmap_app, elem_of_app. simpl.
    rewrite list_elem_of_singleton. tauto.
Qed.

Lemma countPath_plain (counts : list (string * nat)) (path : string) :
  Js.startsWith path "." = false →
  Forall startsPlain counts.*1 → Forall startsPlain (countPath counts path).*1.
Proof.
  intros Hpath. unfold countPath.
  assert (∀ i, 1 ≤ i → i < length (Js.split "." path) →
               startsPlain (Js.join "." (take i (Js.split "." path)))) as Hkey.
  { intros i Hi Hlen. destruct path as [|c r]; [simpl in Hlen; lia|].
    assert (c ≠ "."%char) as Hc.
    { simpl in Hpath. by destruct (decide ("."%char = c)) as [->|]. }
    destruct (split_plain c r Hc) as (h & t & ->).
    destruct i as [|i]; [lia|].
    change (take (S i) (String c h :: t)) with (String c h :: take i t).
    destruct (join_plain c h (take i t)) as [r' Hr]. rewrite Hr. by exists c, r'. }
  assert (Forall (fun i => 1 ≤ i ∧ i < length (Js.split "." path))
            (seq 1 (length (Js.split "." path) - 1))) as Hseq.
  { apply Forall_forall. intros i Hi%list_elem_of_In%in_seq. lia. }
  revert Hseq counts. generalize (seq 1 (length (Js.split "." path) - 1)).
  intros l. induction 1 as [|i l [Hi Hlen] _ IH]; intros counts Hcounts; simpl; [done|].
  apply IH. apply Forall_forall. intros k [->|Hk]%mapSet_keys.
  - by apply Hkey.
  - by eapply Forall_forall in Hcounts.
Qed.

Lemma prefixCounts_plain (paths : list string) :
  Forall (fun path => Js.startsWith path "." = false) paths →
  Forall startsPlain (prefixCounts paths).*1.
Proof.
  unfold prefixCounts. intros Hpaths.
  assert (∀ counts : list (string * nat),
            Forall startsPlain counts.*1 →
            Forall startsPlain (foldl countPath counts paths).*1) as H.
  { induction Hpaths as [|path paths Hpath _ IH]; intros counts Hc; simpl; [done|].
    apply IH. by apply countPath_plain. }
  apply H. constructor.
Qed.

Lemma generated_when_plain (prefix : string) (counter : nat) (used : gset string) :
  startsPlain prefix → is_Some (_generateAbbreviation prefix counter used).
Proof.
  intros (c & r & -> & Hc). unfold _generateAbbreviation.
  destruct (split_plain c r Hc) as (h & t & ->). simpl.
  repeat match goal with |- is_Some (if ?b then _ else _) => destruct b end; eauto.
Qed.

Lemma abbreviateAll_when_plain (entries : list (string * nat)) (st : abbrState) :
  Forall startsPlain entries.*1 → is_Some (abbreviateAll st entries).
Proof.
  revert st. induction entries as [|[p c] entries IH]; intros st Hall; simpl; [eauto|].
  apply Forall_cons in Hall as [Hp Hall].
  destruct (generated_when_plain p (abbrCounter st) (usedAbbrs st) Hp) as [[a u] Hgen].
  unfold abbreviateStep. rewrite Hgen. simpl.
  destruct (definitionCost p a <? savings p a c)%Z; by apply IH.
Qed.

Lemma generateAbbreviations_returns (cfg : BrevitConfig) (paths : list string) :
  Forall (fun path => Js.startsWith path "." = false) paths →
  is_Some (_generateAbbreviations cfg paths).
Proof.
  intros Hpaths. unfold _generateAbbreviations.
  destruct (enableAbbreviations cfg); simpl; [|eauto].
  destruct (abbreviateAll_when_plain (frequentPrefixes cfg paths) initialState)
    as [st Hst]; [|rewrite Hst; simpl; eauto].
  apply Forall_forall. intros k ([k' c] & -> & Hin)%list_elem_of_fmap.
  apply frequentPrefixes_threshold in Hin as [Hin _].
  pose proof (prefixCounts_plain paths Hpaths) as Hall.
  eapply Forall_forall in Hall; [exact Hall|].
  apply list_elem_of_fmap. by exists (k', c).
Qed.

(** ** The abbreviation table *)

(** C2: in a call that returns, every candidate that met the threshold has
    an alias, and adds its definition line exactly when
    [(len prefix - len alias - 1) * count > len prefix + len alias + 3]; the
    definition lines are those of the accepted candidates, in order. When
    every count is below the threshold there is no candidate and no
    definition line. The call returns whenever no path starts with a dot. *)
Theorem definition_emitted_iff_net_savings :
  (∀ (cfg : BrevitConfig) (paths : list string) (tbl : list (string * string))
     (defs : list string),
     enableAbbreviations cfg = true →
     _generateAbbreviations cfg paths = Some (tbl, defs) →
     (∀ i p c, frequentPrefixes cfg paths !! i = Some (p, c) →
        ∃ abbr, aliasAt (frequentPrefixes cfg paths) i = Some abbr
          ∧ acceptedAt (frequentPrefixes cfg paths) i (p, c)
            = (if bool_decide
                    ((Z.of_nat (String.length p) - Z.of_nat (String.length abbr) - 1)
                       * Z.of_nat c
                     > Z.of_nat (String.length p) + Z.of_nat (String.length abbr) + 3)%Z
               then [(p, abbr)] else []))
     ∧ defs = List.map lineOfEntry
                (concat (imap (acceptedAt (frequentPrefixes cfg paths))
                           (frequentPrefixes cfg paths))))
  ∧ (∀ (cfg : BrevitConfig) (paths : list string),
       (∀ e, e ∈ prefixCounts paths → (Z.of_nat e.2 < abbreviationThreshold cfg)%Z) →
       frequentPrefixes cfg paths = []
       ∧ _generateAbbreviations cfg paths = Some ([], []))
  ∧ (∀ (cfg : BrevitConfig) (paths : list string),
       Forall (fun path => Js.startsWith path "." = false) paths →
       is_Some (_generateAbbreviations cfg paths)).
Proof.
  split; [|split; [|exact generateAbbreviations_returns]].
  - intros cfg paths tbl defs Hen Hgen.
    destruct (generated_table _ _ _ _ Hgen) as (_ & Hdefs & _ & Htbl).
    specialize (Htbl Hen). split; [|by rewrite Hdefs, Htbl].
    intros i p c Hi. unfold _generateAbbreviations in Hgen. rewrite Hen in Hgen.
    simpl in Hgen.
    destruct (abbreviateAll initialState (frequentPrefixes cfg paths))
      as [st|] eqn:Hrun; [|done].
    destruct (run_reaches _ _ _ _ Hrun Hi) as (sti & abbr & used & _ & _ & Ha & _).
    exists abbr. split; [done|]. unfold acceptedAt. rewrite Ha. simpl.
    unfold netBeneficial, definitionCost, savings.
    destruct (Z.ltb_spec
                (Z.of_nat (String.length p) + Z.of_nat (String.length abbr) + 3)
                ((Z.of_nat (String.length p) - Z.of_nat (String.length abbr) - 1)
                   * Z.of_nat c)) as [Hlt|Hge].
    + rewrite bool_decide_eq_true_2; [done|lia].
    + rewrite bool_decide_eq_false_2; [done|lia].
  - intros cfg paths Hlow.
    assert (frequentPrefixes cfg paths = []) as Hnil.
    { destruct (frequentPrefixes cfg paths) as [|e l] eqn:Hfp; [done|].
      assert (e ∈ frequentPrefixes cfg paths) as Hin by (rewrite Hfp; by left).
      apply frequentPrefixes_threshold in Hin as [Hin Hth].
      specialize (Hlow e Hin). lia. }
    split; [done|]. unfold _generateAbbreviations. rewrite Hnil.
    by destruct (enableAbbreviations cfg).
Qed.

Lemma definition_emitted_iff_net_savings_witness :
  acceptedAt (frequentPrefixes defaultConfig configPaths) 0 ("config", 4) = [("config", "c")]
  ∧ acceptedAt (frequentPrefixes defaultConfig configPaths) 1 ("id", 2) = []
  ∧ frequentPrefixes {| enableAbbreviations := true; abbreviationThreshold := 5 |}
      configPaths = [].
Proof.
  assert (_generateAbbreviations defaultConfig configPaths
          = Some ([("config", "c")], ["@c=config"])) as Hgen
    by (vm_compute; reflexivity).
  destruct (proj1 definition_emitted_iff_net_savings defaultConfig configPaths _ _
              eq_refl Hgen) as [Hcand _].
  destruct (Hcand 0 "config" 4 eq_refl) as (a0 & Ha0 & H0).
  destruct (Hcand 1 "id" 2 eq_refl) as (a1 & Ha1 & H1).
  assert (aliasAt (frequentPrefixes defaultConfig configPaths) 0 = Some "c") as E0
    by (vm_compute; reflexivity).
  assert (aliasAt (frequentPrefixes defaultConfig configPaths) 1 = Some "i") as E1
    by (vm_compute; reflexivity).
  rewrite E0 in Ha0. injection Ha0 as <-. rewrite E1 in Ha1. injection Ha1 as <-.
  split; [exact H0|]. split; [exact H1|].
  apply (proj1 (proj2 definition_emitted_iff_net_savings)
           {| enableAbbreviations := true; abbreviationThreshold := 5 |} configPaths).
  intros e He. vm_compute in He.
  apply elem_of_cons in He as [->|He]; [simpl; lia|].
  apply elem_of_cons in He as [->|He]; [simpl; lia|].
  by apply elem_of_nil in He.
Defined.

(** C3: two prefixes with the same first letter receive the same alias: the
    counter-derived alias of the second is not compared with the used ones,
    and the table maps both to [b]. *)
Theorem counter_alias_collides :
  (fst <$> _generateAbbreviation "banana" 1 {["b"]}) = Some "b"
  ∧ (o ← _flatten berries EmptyString [];
     _generateAbbreviations defaultConfig (List.map pathOfLine o))
    = Some ([("berry", "b"); ("banana", "b")], ["@b=berry"; "@b=banana"])
  ∧ _flattenObject defaultConfig berries
    = Some (Js.join Js.nl
              ["@b=berry"; "@b=banana";
               "@b.a:1"; "@b.b:2"; "@b.c:3"; "@b.d:4";
               "@b.a:1"; "@b.b:2"; "@b.c:3"; "@b.d:4"]).
Proof. repeat split; vm_compute; reflexivity. Qed.

(** C4, as the code has it: a candidate rejected by the net-savings test
    leaves the table, the definition lines and the counter as they were, and
    is not in the table of the call; the alias generated for it is marked
    used and stays so for the later candidates, which can receive it from
    the counter fallback only. *)
Theorem rejected_candidate_not_recorded :
  (∀ (st : abbrState) (p : string) (c : nat) (abbr : string) (used : gset string),
     _generateAbbreviation p (abbrCounter st) (usedAbbrs st) = Some (abbr, used) →
     netBeneficial p abbr c = false →
     abbreviateStep st (p, c)
     = Some {| abbreviationMap := abbreviationMap st;
               definitions := definitions st;
               abbrCounter := abbrCounter st;
               usedAbbrs := used |}
     ∧ used = {[abbr]} ∪ usedAbbrs st)
  ∧ (∀ (cfg : BrevitConfig) (paths : list string) (tbl : list (string * string))
       (defs : list string) (i : nat) (p : string) (c : nat) (abbr : string),
       enableAbbreviations cfg = true →
       _generateAbbreviations cfg paths = Some (tbl, defs) →
       frequentPrefixes cfg paths !! i = Some (p, c) →
       aliasAt (frequentPrefixes cfg paths) i = Some abbr →
       netBeneficial p abbr c = false →
       (p ∉ tbl.*1)
       ∧ defs = List.map lineOfEntry tbl
       ∧ (∀ j st, i < j → stateAfter (frequentPrefixes cfg paths) j = Some st →
            abbr ∈ usedAbbrs st)
       ∧ (∀ j, i < j → aliasAt (frequentPrefixes cfg paths) j = Some abbr →
            ∃ st, stateAfter (frequentPrefixes cfg paths) j = Some st
                  ∧ abbr = counterAbbr (abbrCounter st))).
Proof.
  assert (∀ (st : abbrState) (p : string) (c : nat) (abbr : string) (used : gset string),
            _generateAbbreviation p (abbrCounter st) (usedAbbrs st) = Some (abbr, used) →
            netBeneficial p abbr c = false →
            abbreviateStep st (p, c)
            = Some {| abbreviationMap := abbreviationMap st;
                      definitions := definitions st;
                      abbrCounter := abbrCounter st;
                      usedAbbrs := used |}
            ∧ used = {[abbr]} ∪ usedAbbrs st) as Hstep.
  { intros st p c abbr used Hgen Hrej. split.
    - unfold abbreviateStep. rewrite Hgen. simpl.
      unfold netBeneficial in Hrej. by rewrite Hrej.
    - by apply generated_marks_used in Hgen as [-> _]. }
  split; [exact Hstep|].
  intros cfg paths tbl defs i p c abbr Hen Hgen Hi Ha Hrej.
  destruct (generated_table _ _ _ _ Hgen) as (_ & Hdefs & _ & Htbl).
  specialize (Htbl Hen).
  assert (∀ j st, i < j → stateAfter (frequentPrefixes cfg paths) j = Some st →
            abbr ∈ usedAbbrs st) as Hlater.
  { intros j st Hij Hj.
    unfold _generateAbbreviations in Hgen. rewrite Hen in Hgen. simpl in Hgen.
    destruct (abbreviateAll initialState (frequentPrefixes cfg paths))
      as [stn|] eqn:Hrun; [|done].
    destruct (run_reaches _ _ _ _ Hrun Hi) as (sti & a & used & _ & Hg & Ha' & HS).
    rewrite Ha in Ha'. injection Ha' as <-. simpl in Hg.
    destruct (Hstep sti p c abbr used Hg Hrej) as [Hst Hused].
    destruct (stateAfter_earlier (frequentPrefixes cfg paths) (S i) j st)
      as (st1 & H1 & Hsub); [lia|done|].
    rewrite HS, Hst in H1. injection H1 as <-. simpl in Hsub.
    apply Hsub. rewrite Hused. apply elem_of_union_l. by apply elem_of_singleton. }
  split; [|split; [done|split; [done|]]].
  - rewrite Htbl. intros ([p' a] & Hp & Hin)%list_elem_of_fmap. simpl in Hp. subst p'.
    apply elem_of_accepted in Hin as (j & c' & Hj & Haj & Hnet).
    assert (i = j) as <-.
    { apply (NoDup_lookup _ _ _ p (frequentPrefixes_NoDup cfg paths));
        rewrite list_lookup_fmap; [by rewrite Hi|by rewrite Hj]. }
    rewrite Hi in Hj. injection Hj as <-. rewrite Ha in Haj. injection Haj as <-.
    congruence.
  - intros j Hij Haj. unfold aliasAt in Haj.
    destruct (stateAfter (frequentPrefixes cfg paths) j) as [stj|] eqn:Hstj; [|done].
    simpl in Haj. destruct (frequentPrefixes cfg paths !! j) as [e|]; [|done].
    simpl in Haj.
    destruct (_generateAbbreviation e.1 (abbrCounter stj) (usedAbbrs stj))
      as [[a u]|] eqn:Hg; [|done].
    simpl in Haj. injection Haj as ->.
    apply generated_marks_used in Hg as [_ [Hfree|Hcounter]].
    + destruct Hfree. by apply (Hlater j).
    + by exists stj.
Qed.

Lemma rejected_candidate_not_recorded_witness :
  ∃ used,
    abbreviateStep initialState ("b", 4)
    = Some {| abbreviationMap := []; definitions := []; abbrCounter := 0;
              usedAbbrs := used |}
    ∧ used = {["b"]} ∪ ∅.
Proof.
  assert (fst <$> _generateAbbreviation "b" 0 ∅ = Some "b") as Ha
    by (vm_compute; reflexivity).
  destruct (_generateAbbreviation "b" 0 ∅) as [[abbr used]|] eqn:Hgen; [|done].
  simpl in Ha. injection Ha as ->. exists used.
  apply (proj1 rejected_candidate_not_recorded initialState "b" 4 "b" used Hgen).
  reflexivity.
Defined.

(** C4, as the claim has it, fails: the rejected candidate [b] leaves its
    alias in the used set, and the later candidate [banana], which would
    have received [b], receives [a]. *)
Lemma rejected_alias_stays_used :
  ¬ rejectionConsumesNoAlias
  ∧ aliasAt [("b", 4); ("banana", 4)] 0 = Some "b"
  ∧ netBeneficial "b" "b" 4 = false
  ∧ aliasAt [("banana", 4)] 0 = Some "b"
  ∧ aliasAt [("b", 4); ("banana", 4)] 1 = Some "a"
  ∧ _flattenObject defaultConfig shortAndLong
    = Some (Js.join Js.nl
              ["@a=banana";
               "b.a:1"; "b.b:2"; "b.c:3"; "b.d:4";
               "@a.a:1"; "@a.b:2"; "@a.c:3"; "@a.d:4"]).
Proof.
  split; [|repeat split; vm_compute; reflexivity].
  intros Hclaim.
  assert (fst <$> _generateAbbreviation "b" 0 ∅ = Some "b") as Ha
    by (vm_compute; reflexivity).
  destruct (_generateAbbreviation "b" 0 ∅) as [[abbr used]|] eqn:Hgen; [|done].
  simpl in Ha. injection Ha as ->.
  assert (abbreviateStep initialState ("b", 4)
          = Some {| abbreviationMap := []; definitions := []; abbrCounter := 0;
                    usedAbbrs := used |}) as Hstep.
  { unfold abbreviateStep. simpl. by rewrite Hgen. }
  specialize (Hclaim initialState _ "b" 4 "b" used Hgen eq_refl Hstep).
  apply generated_marks_used in Hgen as [-> _]. simpl in Hclaim. set_solver.
Qed.

(** ** The path of a line *)

Lemma includes_append (c : ascii) (a b : string) :
  Js.includes c (a +:+ b) = Js.includes c a || Js.includes c b.
Proof.
  induction a as [|x a IH]; [done|]. rewrite append_cons. simpl.
  by destruct (decide (x = c)).
Qed.

Lemma indexOf_absent (c : ascii) (s : string) :
  Js.includes c s = false → Js.indexOf c s = (-1)%Z.
Proof.
  induction s as [|x s IH]; simpl; [done|].
  destruct (decide (x = c)); [done|]. intros H. by rewrite (IH H).
Qed.

Lemma indexOf_first (c : ascii) (p r : string) :
  Js.includes c p = false → Js.indexOf c (p +:+ String c r) = Z.of_nat (String.length p).
Proof.
  induction p as [|x p IH].
  - intros _. change (Js.indexOf c (String c r) = 0%Z). simpl.
    by destruct (decide (c = c)).
  - rewrite append_cons. simpl. destruct (decide (x = c)); [done|].
    intros H. rewrite (IH H).
    destruct (Z.ltb_spec (Z.of_nat (String.length p)) 0); lia.
Qed.

Lemma substringTo_append (p r : string) :
  Js.substringTo (String.length p) (p +:+ r) = p.
Proof.
  induction p as [|x p IH]; [by destruct r|]. rewrite append_cons. simpl. by rewrite IH.
Qed.

(** A line [path:value]: the path is rewritten, the rest is kept. *)
Lemma abbreviateLine_value (cfg : BrevitConfig) (tbl : list (string * string))
    (path v : string) :
  Js.includes ":" path = false →
  Js.includes "[" path = false →
  abbreviateLine cfg tbl (path +:+ String ":" v)
  = _applyAbbreviations cfg path tbl +:+ String ":" v.
Proof.
  intros Hcolon Hbracket. unfold abbreviateLine.
  rewrite (indexOf_first _ _ _ Hcolon), Nat2Z.id.
  rewrite substringTo_append, substringFrom_append, (indexOf_absent _ _ Hbracket).
  destruct (Z.eqb_spec (Z.of_nat (String.length path)) (-1)); [lia|]. done.
Qed.

(** A line [base[...]...:value]: the part before the bracket is rewritten,
    the rest is kept. *)
Lemma abbreviateLine_bracket (cfg : BrevitConfig) (tbl : list (string * string))
    (base more v : string) :
  base ≠ EmptyString →
  Js.includes ":" base = false →
  Js.includes "[" base = false →
  Js.includes ":" more = false →
  abbreviateLine cfg tbl ((base +:+ String "[" more) +:+ String ":" v)
  = _applyAbbreviations cfg base tbl +:+ String "[" more +:+ String ":" v.
Proof.
  intros Hne Hcolon Hbracket Hmore. unfold abbreviateLine.
  assert (Js.includes ":" (base +:+ String "[" more) = false) as Hpath.
  { rewrite includes_append, Hcolon. simpl. exact Hmore. }
  rewrite (indexOf_first _ _ _ Hpath), Nat2Z.id.
  rewrite substringTo_append, substringFrom_append, (indexOf_first _ _ _ Hbracket).
  rewrite Nat2Z.id, substringTo_append, substringFrom_append.
  destruct (Z.eqb_spec (Z.of_nat (String.length (base +:+ String "[" more))) (-1));
    [lia|].
  destruct (Z.ltb_spec 0 (Z.of_nat (String.length base))); [done|].
  destruct base; [done|simpl in *; lia].
Qed.

(** ** The rewrite pass *)

(** C9: with the table of a call, a path that starts with an accepted
    prefix and a dot is rewritten once: the longest such prefix becomes [@]
    and its alias, the dot and the rest of the path are kept; a path that no
    accepted prefix matches is returned as it is. In a line the path, or
    its part before the first bracket, is what is rewritten; the rest of the
    line is kept. *)
Theorem longest_accepted_prefix_rewritten (cfg : BrevitConfig) (paths : list string)
    (tbl : list (string * string)) (defs : list string) (path : string) :
  _generateAbbreviations cfg paths = Some (tbl, defs) →
  (∀ p a rest,
     (p, a) ∈ tbl →
     path = p +:+ "." +:+ rest →
     (∀ p' a', (p', a') ∈ tbl → Js.startsWith path (p' +:+ ".") = true →
               String.length p' ≤ String.length p) →
     _applyAbbreviations cfg path tbl = "@" +:+ a +:+ "." +:+ rest)
  ∧ ((∀ p a, (p, a) ∈ tbl → Js.startsWith path (p +:+ ".") = false) →
     _applyAbbreviations cfg path tbl = path)
  ∧ (∀ v, Js.includes ":" path = false → Js.includes "[" path = false →
        abbreviateLine cfg tbl (path +:+ ":" +:+ v)
        = _applyAbbreviations cfg path tbl +:+ ":" +:+ v)
  ∧ (∀ more v, path ≠ EmptyString →
        Js.includes ":" path = false → Js.includes "[" path = false →
        Js.includes ":" more = false →
        abbreviateLine cfg tbl (path +:+ "[" +:+ more +:+ ":" +:+ v)
        = _applyAbbreviations cfg path tbl +:+ "[" +:+ more +:+ ":" +:+ v).
Proof.
  intros Hgen.
  cut ((∀ p a rest,
          (p, a) ∈ tbl →
          path = p +:+ "." +:+ rest →
          (∀ p' a', (p', a') ∈ tbl → Js.startsWith path (p' +:+ ".") = true →
                    String.length p' ≤ String.length p) →
          _applyAbbreviations cfg path tbl = "@" +:+ a +:+ "." +:+ rest)
       ∧ ((∀ p a, (p, a) ∈ tbl → Js.startsWith path (p +:+ ".") = false) →
          _applyAbbreviations cfg path tbl = path)).
  { intros [H1 H2]. split; [exact H1|]. split; [exact H2|]. split.
    - intros v. apply abbreviateLine_value.
    - intros more v Hne Hc Hb Hm.
      pose proof (abbreviateLine_bracket cfg tbl path more v Hne Hc Hb Hm) as H.
      rewrite append_assoc in H. exact H. }
  destruct (generated_table _ _ _ _ Hgen) as (Hkeys & _ & Hlong & _).
  assert (enableAbbreviations cfg = false → tbl = []) as Hoff.
  { intros Hen. unfold _generateAbbreviations in Hgen. rewrite Hen in Hgen.
    simpl in Hgen. by injection Hgen as <- _. }
  pose proof (foldl_bestMatch path tbl (EmptyString, EmptyString)) as Hbest.
  unfold _applyAbbreviations.
  destruct (foldl (bestMatchStep path) (EmptyString, EmptyString) tbl)
    as [bestMatch bestAbbr].
  simpl in Hbest. destruct Hbest as (Hr & _ & Hall).
  split.
  - intros p a rest Hin Hpath Hmax.
    destruct (enableAbbreviations cfg) eqn:Hen;
      [|rewrite (Hoff eq_refl) in Hin; by apply elem_of_nil in Hin].
    destruct tbl as [|e tbl']; [by apply elem_of_nil in Hin|]. simpl.
    assert (Js.startsWith path (p +:+ ".") = true) as Hm.
    { apply startsWith_append. exists rest. by rewrite append_assoc. }
    pose proof (Hlong _ _ Hin) as Hp2. pose proof (Hall _ Hin Hm) as Hle.
    simpl in Hle.
    destruct Hr as [[= -> ->]|(Hbin & Hbm & _)]; [simpl in Hle; lia|].
    simpl in Hbm. pose proof (Hmax _ _ Hbin Hbm) as Hge.
    assert (bestMatch = p) as ->.
    { apply startsWith_append in Hbm as [r Hr]. rewrite append_assoc in Hr.
      rewrite Hpath in Hr. symmetry in Hr.
      apply (append_same_length _ _ _ _ Hr). lia. }
    rewrite (NoDup_keys_functional _ _ _ _ Hkeys Hbin Hin).
    destruct p as [|x p]; [simpl in Hp2; lia|]. simpl Js.truthy. cbv iota.
    do 3 f_equal. rewrite Hpath, <- append_assoc.
    replace (String.length (String x p) + 1)
      with (String.length (String x p +:+ ".")) by (rewrite length_append; done).
    apply substringFrom_append.
  - intros Hnone.
    destruct (negb (enableAbbreviations cfg) || (length tbl =? 0)); [done|].
    destruct Hr as [[= -> ->]|(Hbin & Hbm & _)]; [done|].
    simpl in Hbm. rewrite (Hnone _ _ Hbin) in Hbm. done.
Qed.

Lemma longest_accepted_prefix_rewritten_witness :
  _applyAbbreviations defaultConfig "order.customer.name"
    [("order", "o"); ("order.customer", "oc")] = "@oc.name"
  ∧ _applyAbbreviations defaultConfig "orders.total"
      [("order", "o"); ("order.customer", "oc")] = "orders.total"
  ∧ abbreviateLine defaultConfig [("order", "o"); ("order.customer", "oc")]
      "order.customer.name:John" = "@oc.name:John".
Proof.
  assert (_generateAbbreviations defaultConfig orderPaths
          = Some ([("order", "o"); ("order.customer", "oc")],
                  ["@o=order"; "@oc=order.customer"])) as Hgen
    by (vm_compute; reflexivity).
  destruct (longest_accepted_prefix_rewritten defaultConfig orderPaths _ _
              "order.customer.name" Hgen) as (Hlong & _ & Hline & _).
  destruct (longest_accepted_prefix_rewritten defaultConfig orderPaths _ _
              "orders.total" Hgen) as (_ & Hnone & _ & _).
  assert (_applyAbbreviations defaultConfig "order.customer.name"
            [("order", "o"); ("order.customer", "oc")] = "@oc.name") as Hname.
  { apply (Hlong "order.customer" "oc" "name").
    - right. left.
    - reflexivity.
    - intros p' a' Hin _.
      apply elem_of_cons in Hin as [[= -> ->]|Hin]; [simpl; lia|].
      apply elem_of_cons in Hin as [[= -> ->]|Hin]; [simpl; lia|].
      by apply elem_of_nil in Hin. }
  split; [exact Hname|]. split.
  - apply Hnone. intros p a Hin.
    apply elem_of_cons in Hin as [[= -> ->]|Hin]; [reflexivity|].
    apply elem_of_cons in Hin as [[= -> ->]|Hin]; [reflexivity|].
    by apply elem_of_nil in Hin.
  - specialize (Hline "John" eq_refl eq_refl). rewrite Hname in Hline. exact Hline.
Defined.

(** * Further properties of the encoder and of the client *)

(** ** The classifiers *)

Lemma uniformLoop_inv (firstKeys : list string) (rest : list value) :
  uniformLoop firstKeys (list_to_set firstKeys) rest = true →
  Forall (fun item => ∃ entries, item = VObj entries
            ∧ length (keysOf entries) = length firstKeys
            ∧ ∀ k, k ∈ keysOf entries → k ∈ firstKeys) rest.
Proof.
  induction rest as [|item rest IH]; simpl; [constructor|].
  destruct item as [| | | |entries|]; try done.
  destruct (Nat.eqb_spec (length firstKeys) (length (keysOf entries))) as [Hlen|];
    [|done].
  simpl.
  destruct (forallb (fun key => bool_decide (key ∈ (list_to_set firstKeys : gset string)))
              (keysOf entries)) eqn:Hall; [|done].
  simpl. intros Hrest. constructor; [|by apply IH].
  exists entries. split; [done|]. split; [done|].
  intros k Hk. rewrite forallb_forall in Hall.
  specialize (Hall k (proj1 (list_elem_of_In _ _) Hk)).
  apply bool_decide_eq_true in Hall. by apply elem_of_list_to_set in Hall.
Qed.

Lemma same_length_subset (l1 l2 : list string) :
  NoDup l1 → length l1 = length l2 → (∀ k, k ∈ l1 → k ∈ l2) → ∀ k, k ∈ l2 → k ∈ l1.
Proof.
  intros Hnd Hlen Hsub k Hk.
  assert (l1 ≡ₚ l2) as Hperm.
  { apply submseteq_length_Permutation; [by apply NoDup_submseteq|lia]. }
  by rewrite Hperm.
Qed.

Lemma uniform_inv (arr : list value) (keys : list string) :
  Forall distinctKeys arr →
  _isUniformObjectArray arr = Some keys →
  ∃ first rest, arr = VObj first :: rest ∧ keys = keysOf first
                ∧ Forall (sameKeys keys) rest.
Proof.
  intros Hwf. destruct arr as [|[| | | |first|] rest]; simpl; try done.
  destruct (uniformLoop (keysOf first) (list_to_set (keysOf first)) rest) eqn:Hloop;
    [|done].
  intros [= <-]. exists first, rest. split; [done|]. split; [done|].
  apply uniformLoop_inv in Hloop. apply Forall_cons in Hwf as [_ Hwf].
  rewrite Forall_forall in Hloop, Hwf. apply Forall_forall. intros item Hin.
  destruct (Hloop item Hin) as (entries & -> & Hlen & Hsub).
  exists entries. split; [done|]. split; [done|].
  intros k. split; [apply Hsub|].
  apply same_length_subset; [exact (Hwf _ Hin)|done|done].
Qed.

(** X1: on objects without a repeated key, the check accepts exactly the
    arrays that start with an object and whose later elements are objects
    with the key set of the first, and it returns the keys of the first. *)
Theorem uniform_iff_same_key_sets (arr : list value) (keys : list string) :
  Forall distinctKeys arr →
  (_isUniformObjectArray arr = Some keys
   ↔ ∃ first rest, arr = VObj first :: rest ∧ keys = keysOf first
                   ∧ Forall (sameKeys keys) rest).
Proof.
  intros Hwf. split; [by apply uniform_inv|].
  intros (first & rest & -> & -> & Hrest). simpl.
  by rewrite (uniformLoop_sameKeys _ _ Hrest).
Qed.

(** Objects written out in full have distinct keys by evaluation. *)
Ltac solve_distinct :=
  repeat first
    [ apply List.Forall_nil
    | apply List.Forall_cons
    | exact I
    | (cbv [distinctKeys keysOf]; apply (bool_decide_unpack _); vm_compute; exact I) ].

Lemma uniform_iff_same_key_sets_witness :
  _isUniformObjectArray itemsReordered = Some ["sku"; "qty"].
Proof.
  apply uniform_iff_same_key_sets.
  - unfold itemsReordered. solve_distinct.
  - eexists _, _. split; [reflexivity|]. split; [reflexivity|].
    constructor; [|constructor]. eexists. split; [reflexivity|]. split; [reflexivity|].
    intros k. simpl. rewrite !elem_of_cons, !elem_of_nil. tauto.
Defined.

Lemma getProp_is_Some (entries : list (string * value)) (k : string) :
  k ∈ keysOf entries → is_Some (getProp entries k).
Proof.
  induction entries as [|[k' v] entries IH]; simpl.
  - by intros ?%elem_of_nil.
  - destruct (decide (k' = k)); [eauto|].
    intros [->|Hin]%elem_of_cons; [done|by apply IH].
Qed.

(** X2: in an array the check accepts, every element is an object with as
    many keys as were returned and a member for each of them: a row never
    lacks a cell. *)
Theorem uniform_rows_have_every_cell (arr : list value) (keys : list string)
    (item : value) (k : string) :
  Forall distinctKeys arr →
  _isUniformObjectArray arr = Some keys →
  item ∈ arr → k ∈ keys →
  ∃ entries v, item = VObj entries ∧ length (keysOf entries) = length keys
               ∧ getMember item k = Some v.
Proof.
  intros Hwf Hu Hitem Hk.
  destruct (uniform_inv _ _ Hwf Hu) as (first & rest & -> & -> & Hrest).
  apply elem_of_cons in Hitem as [->|Hitem].
  - destruct (getProp_is_Some first k Hk) as [v Hv]. by exists first, v.
  - rewrite Forall_forall in Hrest.
    destruct (Hrest item Hitem) as (entries & -> & Hlen & Hkeys).
    destruct (getProp_is_Some entries k) as [v Hv]; [by apply Hkeys|].
    by exists entries, v.
Qed.

Lemma uniform_rows_have_every_cell_witness :
  ∃ entries v,
    VObj [("qty", VNum "2"); ("sku", VStr "T-22")] = VObj entries
    ∧ length (keysOf entries) = 2
    ∧ getMember (VObj [("qty", VNum "2"); ("sku", VStr "T-22")]) "sku" = Some v.
Proof.
  apply (uniform_rows_have_every_cell itemsReordered ["sku"; "qty"]).
  - unfold itemsReordered. solve_distinct.
  - reflexivity.
  - right. left.
  - left.
Defined.

(** X3: [_isPrimitiveArray] accepts exactly the non-empty arrays without an
    object or an array among their elements, and never an array that
    [_isUniformObjectArray] accepts. *)
Theorem primitive_iff_all_scalars (arr : list value) :
  (_isPrimitiveArray arr = true
   ↔ arr ≠ [] ∧ Forall (fun v => isObjectLike v = false) arr)
  ∧ (is_Some (_isUniformObjectArray arr) → _isPrimitiveArray arr = false).
Proof.
  assert (∀ l, primitiveLoop l = true ↔ Forall (fun v => isObjectLike v = false) l)
    as Hloop.
  { induction l as [|v l IH]; simpl; [by split; [constructor|]|].
    rewrite Forall_cons, <- IH. destruct (isObjectLike v); intuition congruence. }
  split.
  - destruct arr as [|first rest]; simpl; [intuition congruence|].
    rewrite Forall_cons, <- Hloop. destruct (isObjectLike first); intuition congruence.
  - intros [keys Hu]. destruct arr as [|[| | | |first|] rest]; done.
Qed.

Lemma primitive_iff_all_scalars_witness :
  _isPrimitiveArray [VObj []; VObj []] = false.
Proof.
  apply (proj2 (primitive_iff_all_scalars [VObj []; VObj []])). by eexists.
Defined.

(** ** The lines of a subtree *)

Lemma startsWith_app (p r : string) : Js.startsWith (p +:+ r) p = true.
Proof. apply startsWith_append. by exists r. Qed.

Lemma startsWith_trans (s p q : string) :
  Js.startsWith s p = true → Js.startsWith p q = true → Js.startsWith s q = true.
Proof.
  intros [r1 ->]%startsWith_append [r2 ->]%startsWith_append.
  apply startsWith_append. exists (r2 +:+ r1). apply append_assoc.
Qed.

Lemma startsWith_nil (s : string) : Js.startsWith s EmptyString = true.
Proof. reflexivity. Qed.

Lemma includes_colon_line (label text : string) :
  Js.includes ":" (label +:+ ":" +:+ text) = true.
Proof.
  rewrite includes_append. change (":" +:+ text) with (String ":" text). simpl.
  apply orb_true_r.
Qed.

Lemma linesOf_array (items : list value) (prefix : string) :
  linesOf (VArr items) prefix
  = match _isUniformObjectArray items with
    | Some _ => (fun line => [line]) <$> _formatTabularArray items prefix
    | None =>
        if _isPrimitiveArray items
        then (fun line => [line]) <$> _formatPrimitiveArray items prefix
        else inSequence (imap (fun i item => linesOf item (indexPrefix prefix i)) items)
    end.
Proof.
  unfold linesOf at 1. rewrite flatten_array.
  destruct (_isUniformObjectArray items) as [keys|] eqn:Hu.
  - by destruct (_formatTabularArray items prefix).
  - destruct (_isPrimitiveArray items).
    + by destruct (_formatPrimitiveArray items prefix).
    + apply flattenItems_sequence.
Qed.

Lemma scalarLabel_prefix (prefix : string) :
  Js.startsWith (scalarLabel prefix) prefix = true.
Proof.
  unfold scalarLabel. destruct prefix as [|a p]; [done|]. simpl Js.truthy. cbv iota.
  rewrite <- (append_nil_r (String a p)) at 1. apply startsWith_app.
Qed.

Lemma fieldPrefix_prefix (prefix key : string) :
  Js.startsWith (fieldPrefix prefix key) prefix = true.
Proof.
  unfold fieldPrefix. destruct prefix as [|a p]; [done|]. simpl Js.truthy. cbv iota.
  apply startsWith_app.
Qed.

Lemma formatTabular_line (items : list value) (prefix line : string) :
  _formatTabularArray items prefix = Some line →
  ∃ keys rows, line = (prefix +:+ "[" +:+ pretty (length items) +:+ "]{"
                         +:+ Js.join "," keys +:+ "}:")
                      +:+ Js.nl +:+ Js.join Js.nl rows.
Proof.
  unfold _formatTabularArray. destruct (_isUniformObjectArray items) as [keys|]; [|done].
  simpl. destruct (mapM (tabularRow keys) items) as [rows|]; [|done].
  intros [= <-]. by exists keys, rows.
Qed.

Lemma formatPrimitive_line (items : list value) (prefix line : string) :
  _formatPrimitiveArray items prefix = Some line →
  ∃ values, line = prefix +:+ "[" +:+ pretty (length items) +:+ "]:"
                     +:+ Js.join "," values.
Proof.
  unfold _formatPrimitiveArray. destruct (mapM _escapeValue items) as [values|]; [|done].
  intros [= <-]. by exists values.
Qed.

Lemma lines_start_with_prefix (node : value) :
  ∀ prefix lines,
    linesOf node prefix = Some lines →
    Forall (fun line => Js.startsWith line prefix = true
                        ∧ Js.includes ":" line = true) lines.
Proof.
  assert (∀ v prefix lines, isObjectLike v = false → linesOf v prefix = Some lines →
            Forall (fun line => Js.startsWith line prefix = true
                                ∧ Js.includes ":" line = true) lines)
    as Hscalar.
  { intros v prefix lines Hv Hlines.
    destruct (linesOf_scalar v prefix Hv) as (text & _ & Heq).
    rewrite Heq in Hlines. injection Hlines as <-.
    constructor; [|constructor]. split; [|apply includes_colon_line].
    eapply startsWith_trans; [apply startsWith_app|apply scalarLabel_prefix]. }
  induction node as [| b | repr | s | entries IH | items IH] using value_ind;
    intros prefix lines Hlines;
    try (refine (Hscalar _ _ _ _ Hlines); reflexivity).
  - rewrite linesOf_object in Hlines. apply (inSequence_Forall _ _ _ Hlines).
    apply Forall_fmap, Forall_forall. intros kv Hin ls Hls. simpl in Hls.
    rewrite Forall_forall in IH. specialize (IH kv Hin _ _ Hls).
    eapply Forall_impl; [exact IH|]. intros line [Hp Hc]. split; [|exact Hc].
    eapply startsWith_trans; [exact Hp|apply fieldPrefix_prefix].
  - rewrite linesOf_array in Hlines. destruct (_isUniformObjectArray items) as [keys|].
    { destruct (_formatTabularArray items prefix) as [line|] eqn:Hline; [|done].
      injection Hlines as <-. apply formatTabular_line in Hline as (ks & rows & ->).
      constructor; [|constructor]. split.
      - rewrite !append_assoc. apply startsWith_app.
      - rewrite includes_append. apply orb_true_iff. left.
        rewrite !includes_append. simpl. rewrite !orb_true_r. reflexivity. }
    destruct (_isPrimitiveArray items).
    { destruct (_formatPrimitiveArray items prefix) as [line|] eqn:Hline; [|done].
      injection Hlines as <-. apply formatPrimitive_line in Hline as (values & ->).
      constructor; [|constructor]. split.
      - apply startsWith_app.
      - rewrite !includes_append. simpl. rewrite !orb_true_r. reflexivity. }
    apply (inSequence_Forall _ _ _ Hlines). apply Forall_forall.
    intros r Hr ls Hls. apply elem_of_lookup_imap in Hr as (i & item & Heq & Hi).
    subst r. rewrite Forall_forall in IH.
    specialize (IH item (list_elem_of_lookup_2 _ _ _ Hi) _ _ Hls).
    eapply Forall_impl; [exact IH|]. intros line [Hp Hc]. split; [|exact Hc].
    eapply startsWith_trans; [exact Hp|apply startsWith_app].
Qed.

(** X4: every line [_flatten] pushes for a subtree starts with the path of
    the subtree and holds a colon. *)
Theorem flattened_lines_carry_the_prefix (node : value) (prefix : string)
    (output output' : list string) (line : string) :
  _flatten node prefix output = Some output' →
  ∃ lines, output' = output ++ lines
    ∧ (line ∈ lines → Js.startsWith line prefix = true ∧ Js.includes ":" line = true).
Proof.
  rewrite flatten_acc. destruct (linesOf node prefix) as [lines|] eqn:Hlines; [|done].
  intros [= <-]. exists lines. split; [done|].
  intros Hin. pose proof (lines_start_with_prefix node prefix lines Hlines) as H.
  rewrite Forall_forall in H. by apply H.
Qed.

Lemma flattened_lines_carry_the_prefix_witness :
  ∃ lines, ["id:7"; "order.items[0].sku:A-88"] = ["id:7"] ++ lines
    ∧ ("order.items[0].sku:A-88" ∈ lines →
       Js.startsWith "order.items[0].sku:A-88" "order.items" = true
       ∧ Js.includes ":" "order.items[0].sku:A-88" = true).
Proof.
  apply (flattened_lines_carry_the_prefix
           (VArr [VObj [("sku", VStr "A-88")]; VArr []]) "order.items" ["id:7"]).
  vm_compute. reflexivity.
Defined.

(** ** The facade without a table *)

Lemma substring_halves (n : nat) (s : string) :
  Js.substringTo n s +:+ Js.substringFrom n s = s.
Proof.
  revert s. induction n as [|n IH]; intros [|a s]; simpl; try done.
  rewrite append_cons. by rewrite IH.
Qed.

Lemma applyAbbreviations_nil (cfg : BrevitConfig) (path : string) :
  _applyAbbreviations cfg path [] = path.
Proof. unfold _applyAbbreviations. simpl. by rewrite orb_true_r. Qed.

Lemma abbreviateLine_nil (cfg : BrevitConfig) (line : string) :
  abbreviateLine cfg [] line = line.
Proof.
  unfold abbreviateLine. destruct (Js.indexOf ":" line =? -1)%Z; [done|].
  rewrite !applyAbbreviations_nil.
  destruct (0 <? Js.indexOf "[" (Js.substringTo (Z.to_nat (Js.indexOf ":" line)) line))%Z.
  - rewrite <- append_assoc. by rewrite !substring_halves.
  - apply substring_halves.
Qed.

(** X5: when no abbreviation is accepted the facade returns the lines of
    [_flatten] joined by line feeds, each as it was pushed; with the
    abbreviations disabled it does so whenever [_flatten] returns, and
    throws only when [_flatten] does. *)
Theorem no_abbreviation_plain_join (cfg : BrevitConfig) (node : value) :
  (∀ lines,
     _flatten node EmptyString [] = Some lines →
     _generateAbbreviations cfg (List.map pathOfLine lines) = Some ([], []) →
     _flattenObject cfg node = Some (Js.join Js.nl lines))
  ∧ (enableAbbreviations cfg = false →
     _flattenObject cfg node = Js.join Js.nl <$> _flatten node EmptyString []).
Proof.
  assert (∀ lines,
            _flatten node EmptyString [] = Some lines →
            _generateAbbreviations cfg (List.map pathOfLine lines) = Some ([], []) →
            _flattenObject cfg node = Some (Js.join Js.nl lines)) as Hplain.
  { intros lines Hlines Hgen. unfold _flattenObject. rewrite Hlines. simpl.
    rewrite Hgen. simpl.
    rewrite (List.map_ext _ id (abbreviateLine_nil cfg)). by rewrite List.map_id. }
  split; [exact Hplain|]. intros Hoff.
  destruct (_flatten node EmptyString []) as [lines|] eqn:Hlines.
  - apply (Hplain lines eq_refl). unfold _generateAbbreviations. by rewrite Hoff.
  - unfold _flattenObject. by rewrite Hlines.
Qed.

Lemma no_abbreviation_plain_join_witness :
  _flattenObject {| enableAbbreviations := false; abbreviationThreshold := 2 |} berries
  = Some (Js.join Js.nl
            ["berry.a:1"; "berry.b:2"; "berry.c:3"; "berry.d:4";
             "banana.a:1"; "banana.b:2"; "banana.c:3"; "banana.d:4"]).
Proof.
  rewrite (proj2 (no_abbreviation_plain_join
                    {| enableAbbreviations := false; abbreviationThreshold := 2 |}
                    berries) eq_refl).
  vm_compute. reflexivity.
Defined.

(** ** When [_flatten] returns *)

Lemma String_of_prints (v : value) : is_Some (String_of v) ↔ prints v = true.
Proof.
  induction v as [| b | repr | s | entries _ | items IH] using value_ind;
    try (split; [done|by eexists]).
  - destruct b; (split; [done|by eexists]).
  - simpl. destruct (bool_decide ("toString" ∈ keysOf entries)); simpl.
    + split; [by intros [? [=]]|done].
    + split; [done|by eexists].
  - cbn [String_of prints]. rewrite fmap_is_Some, mapM_is_Some, forallb_forall.
    rewrite Forall_forall in IH. rewrite Forall_forall. split.
    + intros H x Hx%list_elem_of_In. specialize (H x Hx). simpl in H.
      destruct x; try done; by apply (IH _ Hx).
    + intros H x Hx. specialize (H x (proj1 (list_elem_of_In _ _) Hx)). simpl.
      destruct x; try (by eexists); by apply (IH _ Hx).
Qed.

Lemma escapeValue_prints (v : value) : is_Some (_escapeValue v) ↔ prints v = true.
Proof.
  rewrite <- String_of_prints. unfold _escapeValue.
  destruct (String_of v); simpl; split; try done; by eexists.
Qed.

Lemma tabularRow_prints (keys : list string) (item : value) :
  is_Some (tabularRow keys item) ↔ rowPrints keys item = true.
Proof.
  unfold tabularRow, rowPrints.
  rewrite fmap_is_Some, mapM_is_Some, forallb_forall, Forall_forall. split.
  - intros H key Hkey%list_elem_of_In. by apply escapeValue_prints, (H key).
  - intros H key Hkey. apply escapeValue_prints, H, list_elem_of_In, Hkey.
Qed.

Lemma formatTabular_prints (items : list value) (prefix : string) (keys : list string) :
  _isUniformObjectArray items = Some keys →
  is_Some (_formatTabularArray items prefix) ↔ forallb (rowPrints keys) items = true.
Proof.
  intros Hu. unfold _formatTabularArray. rewrite Hu. simpl.
  rewrite forallb_forall.
  assert (is_Some (mapM (tabularRow keys) items)
          ↔ ∀ x, In x items → rowPrints keys x = true) as <-.
  { rewrite mapM_is_Some, Forall_forall. split.
    - intros H x Hx%list_elem_of_In. by apply tabularRow_prints, H.
    - intros H x Hx. apply tabularRow_prints, H, list_elem_of_In, Hx. }
  destruct (mapM (tabularRow keys) items); simpl; split; try done; by eexists.
Qed.

Lemma primitive_scalars (arr : list value) :
  _isPrimitiveArray arr = true → Forall (fun v => isObjectLike v = false) arr.
Proof.
  assert (∀ l, primitiveLoop l = true → Forall (fun v => isObjectLike v = false) l)
    as Hloop.
  { induction l as [|v l IH]; simpl; [constructor|].
    destruct (isObjectLike v) eqn:Hv; [done|]. intros H. constructor; [done|by apply IH]. }
  destruct arr as [|first rest]; simpl; [done|].
  destruct (isObjectLike first) eqn:Hfirst; [done|].
  intros H. constructor; [done|by apply Hloop].
Qed.

Lemma formatPrimitive_returns (arr : list value) (prefix : string) :
  _isPrimitiveArray arr = true → is_Some (_formatPrimitiveArray arr prefix).
Proof.
  intros Hp%primitive_scalars. unfold _formatPrimitiveArray.
  assert (is_Some (mapM _escapeValue arr)) as [values ->]; [|by eexists].
  apply mapM_is_Some. eapply Forall_impl; [exact Hp|].
  intros v Hv. by apply escapeValue_scalar.
Qed.

Lemma flatten_returns (node : value) :
  ∀ prefix, is_Some (linesOf node prefix) ↔ cellsPrint node = true.
Proof.
  induction node as [| b | repr | s | entries IH | items IH] using value_ind;
    intros prefix; try (split; [done|by eexists]).
  - destruct b; (split; [done|by eexists]).
  - rewrite linesOf_object, inSequence_is_Some. cbn [cellsPrint].
    rewrite forallb_forall, Forall_fmap, Forall_forall. rewrite Forall_forall in IH.
    split.
    + intros H [key v] Hin%list_elem_of_In. apply (IH _ Hin (fieldPrefix prefix key)).
      apply (H _ Hin).
    + intros H [key v] Hin. simpl. apply (IH _ Hin).
      apply (H (key, v)), list_elem_of_In, Hin.
  - rewrite linesOf_array. cbn [cellsPrint].
    destruct (_isUniformObjectArray items) as [keys|] eqn:Hu.
    { rewrite fmap_is_Some. by apply formatTabular_prints. }
    destruct (_isPrimitiveArray items) eqn:Hp.
    { rewrite fmap_is_Some. split; [done|]. intros _. by apply formatPrimitive_returns. }
    rewrite inSequence_is_Some, forallb_forall, Forall_forall.
    rewrite Forall_forall in IH. split.
    + intros H item Hin%list_elem_of_In.
      apply list_elem_of_lookup in Hin as Hi. destruct Hi as [i Hi].
      apply (IH _ Hin (indexPrefix prefix i)), H.
      apply elem_of_lookup_imap. by exists i, item.
    + intros H r (i & item & -> & Hi)%elem_of_lookup_imap.
      assert (item ∈ items) as Hin by (by eapply list_elem_of_lookup_2).
      apply (IH _ Hin), H, list_elem_of_In, Hin.
Qed.

(** ** The table and the mixed recursion, with their [TypeError] *)

Lemma mapM_fmap_each {A B C : Type} (f : A → option B) (g : B → C) (l : list A) :
  mapM (fun x => g <$> f x) l = List.map g <$> mapM f l.
Proof.
  induction l as [|x l IH]; [done|]. cbn [mapM]. rewrite IH.
  destruct (f x); [|done]. simpl. by destruct (mapM f l).
Qed.

(** X18: an array of objects that all have the key set of the first one is
    uniform with the first one's key order, and [_flatten] pushes for it the
    one entry of the table (the header [prefix[n]{keys}:] and one row per
    element, the cells in the order of the first element's keys, [null] for
    a null or absent member) exactly when every cell prints; when a cell
    does not, it throws. *)
Theorem uniform_array_table_when_cells_print (first : list (string * value))
    (rest : list value) (prefix : string) (output : list string) :
  Forall (sameKeys (keysOf first)) rest →
  _isUniformObjectArray (VObj first :: rest) = Some (keysOf first)
  ∧ _flatten (VArr (VObj first :: rest)) prefix output
    = (fun rows =>
         output ++
           [(prefix +:+ "[" +:+ pretty (S (length rest)) +:+ "]{"
               +:+ Js.join "," (keysOf first) +:+ "}:")
            +:+ Js.nl +:+ Js.join Js.nl (List.map (Js.join ",") rows)])
        <$> mapM (fun item => mapM (cellText item) (keysOf first)) (VObj first :: rest)
  ∧ (is_Some (_flatten (VArr (VObj first :: rest)) prefix output)
     ↔ forallb (rowPrints (keysOf first)) (VObj first :: rest) = true).
Proof.
  intros Hrest.
  assert (_isUniformObjectArray (VObj first :: rest) = Some (keysOf first)) as Hu.
  { simpl. by rewrite (uniformLoop_sameKeys _ _ Hrest). }
  split; [exact Hu|]. split.
  - rewrite flatten_array, Hu. unfold _formatTabularArray. rewrite Hu.
    cbn [mbind option_bind].
    rewrite (mapM_ext _ _ _ (tabularRow_cells (keysOf first))), mapM_fmap_each.
    by destruct (mapM (fun item => mapM (cellText item) (keysOf first))
                   (VObj first :: rest)).
  - rewrite <- (formatTabular_prints _ prefix _ Hu), flatten_array, Hu.
    destruct (_formatTabularArray (VObj first :: rest) prefix);
      split; try done; by eexists.
Qed.

Lemma uniform_array_table_when_cells_print_witness :
  _flatten (VArr itemsReordered) "items" []
  = Some ["items[2]{sku,qty}:" +:+ Js.nl +:+ "A-88,1" +:+ Js.nl +:+ "T-22,2"].
Proof.
  assert (Forall (sameKeys (keysOf [("sku", VStr "A-88"); ("qty", VNum "1")]))
            [VObj [("qty", VNum "2"); ("sku", VStr "T-22")]]) as H.
  { constructor; [|constructor]. eexists. split; [reflexivity|]. split; [reflexivity|].
    intros k. simpl. rewrite !elem_of_cons, !elem_of_nil. tauto. }
  destruct (uniform_array_table_when_cells_print _ _ "items" [] H) as (_ & Hflat & _).
  unfold itemsReordered. rewrite Hflat. vm_compute. reflexivity.
Defined.

(** X19: a mixed array is flattened element by element under [prefix[i]],
    in order, and throws when the flattening of an element does: a scalar
    element gives the bare line [prefix[i]:value], an object element what
    its members give under [prefix[i].key]. *)
Theorem mixed_array_recurses_in_sequence (items : list value) (prefix : string)
    (output : list string) :
  _isUniformObjectArray items = None →
  _isPrimitiveArray items = false →
  _flatten (VArr items) prefix output
  = (fun lines => output ++ lines)
      <$> inSequence (imap (fun i item => _flatten item (indexPrefix prefix i) []) items)
  ∧ (∀ i item, items !! i = Some item → isObjectLike item = false →
       ∃ text, String_of item = Some text
         ∧ _flatten item (indexPrefix prefix i) []
           = Some [indexPrefix prefix i +:+ ":" +:+ text])
  ∧ (∀ i entries, items !! i = Some (VObj entries) →
       _flatten (VObj entries) (indexPrefix prefix i) []
       = inSequence
           (List.map (fun kv => _flatten kv.2 (indexPrefix prefix i +:+ "." +:+ kv.1) [])
              entries)).
Proof.
  intros Hu Hp. split; [|split].
  - rewrite flatten_acc, linesOf_array, Hu, Hp. reflexivity.
  - intros i item _ Hscalar.
    destruct (linesOf_scalar item (indexPrefix prefix i) Hscalar) as (text & Htext & Hl).
    exists text. split; [exact Htext|]. unfold linesOf, scalarLabel in Hl.
    by rewrite truthy_indexPrefix in Hl.
  - intros i entries _. fold (linesOf (VObj entries) (indexPrefix prefix i)).
    rewrite linesOf_object. f_equal. apply List.map_ext.
    intros [key v]. unfold linesOf, fieldPrefix. simpl. by rewrite truthy_indexPrefix.
Qed.

Lemma mixed_array_recurses_in_sequence_witness :
  _flatten (VArr [VObj [("sku", VStr "A-88")]; VStr "x"]) "items" []
  = Some ["items[0].sku:A-88"; "items[1]:x"].
Proof.
  destruct (mixed_array_recurses_in_sequence [VObj [("sku", VStr "A-88")]; VStr "x"]
              "items" []) as (Hflat & _ & _).
  - reflexivity.
  - reflexivity.
  - rewrite Hflat. vm_compute. reflexivity.
Defined.

(** ** When the facade returns *)

Lemma split_head_prefix (c : ascii) (s : string) :
  ∃ h t r, Js.split c s = h :: t ∧ s = h +:+ r.
Proof.
  induction s as [|a s (h & t & r & Hs & Hr)]; simpl.
  - by exists EmptyString, [], EmptyString.
  - destruct (decide (a = c)).
    + exists EmptyString, (Js.split c s), (String a s). done.
    + rewrite Hs. exists (String a h), t, r. split; [done|].
      rewrite append_cons. by rewrite <- Hr.
Qed.

Lemma pathOfLine_prefix (line : string) : ∃ r, line = pathOfLine line +:+ r.
Proof.
  unfold pathOfLine. destruct (0 <? Js.indexOf ":" line)%Z.
  - set (n := Z.to_nat (Js.indexOf ":" line)).
    destruct (0 <? Js.indexOf "[" (Js.substringTo n line))%Z.
    + set (m := Z.to_nat (Js.indexOf "[" (Js.substringTo n line))).
      exists (Js.substringFrom m (Js.substringTo n line) +:+ Js.substringFrom n line).
      rewrite <- append_assoc. by rewrite !substring_halves.
    + exists (Js.substringFrom n line). by rewrite substring_halves.
  - destruct (split_head_prefix ":" line) as (h & t & r & -> & Hr). simpl. by exists r.
Qed.

Lemma undotted_prefix (s p : string) :
  Js.startsWith s "." = false → (∃ r, s = p +:+ r) → Js.startsWith p "." = false.
Proof.
  intros Hs [r ->]. destruct p as [|a p]; [done|].
  rewrite append_cons in Hs. exact Hs.
Qed.

Lemma undotted_extension (s p : string) :
  Js.truthy p = true → Js.startsWith p "." = false → Js.startsWith s p = true →
  Js.startsWith s "." = false.
Proof.
  intros Hp Hdot [r ->]%startsWith_append. destruct p as [|a p]; [done|].
  rewrite append_cons. exact Hdot.
Qed.

Lemma lines_undotted_under (node : value) (prefix : string) (lines : list string) :
  Js.truthy prefix = true → Js.startsWith prefix "." = false →
  linesOf node prefix = Some lines →
  Forall (fun line => Js.startsWith line "." = false) lines.
Proof.
  intros Hp Hdot Hlines. eapply Forall_impl; [by apply (lines_start_with_prefix node prefix)|].
  intros line [Hline _]. by apply (undotted_extension line prefix).
Qed.

Lemma plainRoot_entries (entries : list (string * value)) :
  plainRoot (VObj entries) →
  Forall (fun kv => if Js.truthy kv.1 then Js.startsWith kv.1 "." = false
                    else plainRoot kv.2) entries.
Proof.
  induction entries as [|[key v] entries IH]; simpl; [constructor|].
  intros [Hkv Hrest]. constructor; [exact Hkv|by apply IH].
Qed.

Lemma lines_undotted_root (node : value) :
  plainRoot node →
  ∀ lines, linesOf node EmptyString = Some lines →
           Forall (fun line => Js.startsWith line "." = false) lines.
Proof.
  assert (∀ v lines, isObjectLike v = false → linesOf v EmptyString = Some lines →
            Forall (fun line => Js.startsWith line "." = false) lines) as Hscalar.
  { intros v lines Hv Hlines. destruct (linesOf_scalar v EmptyString Hv) as (text & _ & Heq).
    rewrite Heq in Hlines. injection Hlines as <-. by repeat constructor. }
  induction node as [| b | repr | s | entries IH | items IH] using value_ind;
    intros Hroot lines Hlines;
    try (refine (Hscalar _ _ _ Hlines); reflexivity).
  - rewrite linesOf_object in Hlines. apply (inSequence_Forall _ _ _ Hlines).
    apply Forall_fmap, Forall_forall. intros [key v] Hin ls Hls. simpl in Hls.
    apply plainRoot_entries in Hroot. rewrite Forall_forall in IH, Hroot.
    specialize (IH _ Hin). specialize (Hroot _ Hin). simpl in IH, Hroot.
    unfold fieldPrefix in Hls. simpl in Hls. destruct (Js.truthy key) eqn:Hkey.
    + by apply (lines_undotted_under v key).
    + destruct key; [|done]. by apply IH.
  - rewrite linesOf_array in Hlines. destruct (_isUniformObjectArray items) as [keys|].
    { destruct (_formatTabularArray items EmptyString) as [line|] eqn:Hline; [|done].
      injection Hlines as <-. apply formatTabular_line in Hline as (ks & rows & ->).
      by repeat constructor. }
    destruct (_isPrimitiveArray items).
    { destruct (_formatPrimitiveArray items EmptyString) as [line|] eqn:Hline; [|done].
      injection Hlines as <-. apply formatPrimitive_line in Hline as (values & ->).
      by repeat constructor. }
    apply (inSequence_Forall _ _ _ Hlines). apply Forall_forall.
    intros r (i & item & -> & Hi)%elem_of_lookup_imap ls Hls.
    by apply (lines_undotted_under item (indexPrefix EmptyString i)).
Qed.

(** X6: for a tree in which no key that can begin a path starts with a dot,
    the facade returns a string exactly when every cell of its tabular
    arrays prints. The [TypeError] of the alias generation needs a key that
    starts with a dot, as in [{".a": {b: 1, c: 2}}]; that of [String] needs
    a cell with an own [toString] member, as in
    [{rows: [{cfg: {toString: 1}}]}]. *)
Theorem facade_returns_without_dotted_root_key :
  (∀ (cfg : BrevitConfig) (node : value),
     plainRoot node → (is_Some (_flattenObject cfg node) ↔ cellsPrint node = true))
  ∧ _flattenObject defaultConfig dottedKey = None
  ∧ _flattenObject defaultConfig toStringCell = None.
Proof.
  split; [|split; vm_compute; reflexivity].
  intros cfg node Hroot. rewrite <- (flatten_returns node EmptyString).
  unfold _flattenObject, linesOf.
  destruct (_flatten node EmptyString []) as [lines|] eqn:Hlines; simpl;
    [|split; by intros [? [=]]].
  split; [by eexists|]. intros _.
  destruct (generateAbbreviations_returns cfg (List.map pathOfLine lines))
    as [[tbl defs] Hgen].
  - apply Forall_forall. intros path Hpath.
    apply list_elem_of_In, in_map_iff in Hpath as (line & <- & Hin).
    apply list_elem_of_In in Hin.
    pose proof (lines_undotted_root node Hroot lines Hlines) as Hall.
    rewrite Forall_forall in Hall.
    apply (undotted_prefix line); [by apply Hall|apply pathOfLine_prefix].
  - rewrite Hgen. simpl. destruct (0 <? length defs); eauto.
Qed.

Lemma facade_returns_without_dotted_root_key_witness :
  is_Some (_flattenObject defaultConfig
             (VObj [("a", VObj [(".b", VObj [("c", VNum "1"); ("d", VNum "2")])])])).
Proof.
  apply (proj1 facade_returns_without_dotted_root_key); [simpl; done|reflexivity].
Defined.

(** ** The rewrite never lengthens *)

Lemma generated_entries_gain (cfg : BrevitConfig) (paths : list string)
    (tbl : list (string * string)) (defs : list string) (p a : string) :
  _generateAbbreviations cfg paths = Some (tbl, defs) →
  (p, a) ∈ tbl → String.length a + 2 ≤ String.length p.
Proof.
  intros Hgen Hin. destruct (generated_table _ _ _ _ Hgen) as (_ & _ & _ & Htbl).
  destruct (enableAbbreviations cfg) eqn:Hen.
  - rewrite (Htbl eq_refl) in Hin.
    apply elem_of_accepted in Hin as (i & c & _ & _ & Hnet).
    by apply netBeneficial_long in Hnet.
  - unfold _generateAbbreviations in Hgen. rewrite Hen in Hgen. simpl in Hgen.
    injection Hgen as <- _. by apply elem_of_nil in Hin.
Qed.

Lemma applyAbbreviations_cases (cfg : BrevitConfig) (path : string)
    (tbl : list (string * string)) :
  _applyAbbreviations cfg path tbl = path
  ∨ ∃ p a rest, (p, a) ∈ tbl ∧ path = p +:+ "." +:+ rest
                ∧ _applyAbbreviations cfg path tbl = "@" +:+ a +:+ "." +:+ rest.
Proof.
  unfold _applyAbbreviations.
  destruct (negb (enableAbbreviations cfg) || (length tbl =? 0)); [by left|].
  pose proof (foldl_bestMatch path tbl (EmptyString, EmptyString)) as Hbest.
  destruct (foldl (bestMatchStep path) (EmptyString, EmptyString) tbl)
    as [bestMatch bestAbbr].
  simpl in Hbest. destruct Hbest as (Hr & _ & _).
  destruct Hr as [[= -> ->]|(Hin & Hm & _)]; [by left|].
  simpl in Hm. destruct (Js.truthy bestMatch); [|by left]. right.
  apply startsWith_append in Hm as [rest Hrest]. rewrite append_assoc in Hrest.
  exists bestMatch, bestAbbr, rest. split; [done|]. split; [done|].
  do 3 f_equal. rewrite Hrest at 1. rewrite <- append_assoc.
  replace (String.length bestMatch + 1)
    with (String.length (bestMatch +:+ ".")) by (rewrite length_append; done).
  apply substringFrom_append.
Qed.

Lemma applyAbbreviations_length (cfg : BrevitConfig) (path : string)
    (tbl : list (string * string)) :
  (∀ p a, (p, a) ∈ tbl → String.length a + 2 ≤ String.length p) →
  String.length (_applyAbbreviations cfg path tbl) ≤ String.length path
  ∧ (_applyAbbreviations cfg path tbl ≠ path →
     String.length (_applyAbbreviations cfg path tbl) < String.length path).
Proof.
  intros Hgain.
  destruct (applyAbbreviations_cases cfg path tbl)
    as [->|(p & a & rest & Hin & Hpath & ->)]; [split; [lia|done]|].
  specialize (Hgain _ _ Hin). rewrite Hpath.
  rewrite !length_append. simpl. split; [lia|]. intros _. lia.
Qed.

(** A rewritten line is its path, rewritten, and the rest of the line. *)
Lemma abbreviateLine_cases (cfg : BrevitConfig) (tbl : list (string * string))
    (line : string) :
  ∃ x y, line = x +:+ y
         ∧ abbreviateLine cfg tbl line = _applyAbbreviations cfg x tbl +:+ y.
Proof.
  unfold abbreviateLine. destruct (Js.indexOf ":" line =? -1)%Z.
  { exists EmptyString, line. split; [done|].
    destruct (applyAbbreviations_cases cfg EmptyString tbl)
      as [->|(p & a & rest & _ & Hp & _)]; [done|].
    by destruct p. }
  set (n := Z.to_nat (Js.indexOf ":" line)).
  destruct (0 <? Js.indexOf "[" (Js.substringTo n line))%Z.
  - set (m := Z.to_nat (Js.indexOf "[" (Js.substringTo n line))).
    exists (Js.substringTo m (Js.substringTo n line)),
      (Js.substringFrom m (Js.substringTo n line) +:+ Js.substringFrom n line).
    split; [|done]. rewrite <- append_assoc. by rewrite !substring_halves.
  - exists (Js.substringTo n line), (Js.substringFrom n line).
    split; [|done]. by rewrite substring_halves.
Qed.

(** X7: with the table of a call, rewriting never makes a path or a line
    longer, and a path it changes gets shorter. *)
Theorem rewriting_never_lengthens (cfg : BrevitConfig) (paths : list string)
    (tbl : list (string * string)) (defs : list string) (text : string) :
  _generateAbbreviations cfg paths = Some (tbl, defs) →
  String.length (_applyAbbreviations cfg text tbl) ≤ String.length text
  ∧ (_applyAbbreviations cfg text tbl ≠ text →
     String.length (_applyAbbreviations cfg text tbl) < String.length text)
  ∧ String.length (abbreviateLine cfg tbl text) ≤ String.length text.
Proof.
  intros Hgen.
  assert (∀ p a, (p, a) ∈ tbl → String.length a + 2 ≤ String.length p) as Hgain
    by (intros p a; apply (generated_entries_gain _ _ _ _ _ _ Hgen)).
  split; [by apply applyAbbreviations_length|].
  split; [by apply applyAbbreviations_length|].
  destruct (abbreviateLine_cases cfg tbl text) as (x & y & Htext & ->).
  rewrite Htext at 1. rewrite !length_append.
  pose proof (proj1 (applyAbbreviations_length cfg x tbl Hgain)). lia.
Qed.

Lemma rewriting_never_lengthens_witness :
  String.length (abbreviateLine defaultConfig
                   [("order", "o"); ("order.customer", "oc")]
                   "order.customer.name:John")
  ≤ String.length "order.customer.name:John".
Proof.
  assert (_generateAbbreviations defaultConfig orderPaths
          = Some ([("order", "o"); ("order.customer", "oc")],
                  ["@o=order"; "@oc=order.customer"])) as Hgen
    by (vm_compute; reflexivity).
  apply (rewriting_never_lengthens defaultConfig orderPaths _ _
           "order.customer.name:John" Hgen).
Defined.

(** ** The aliases *)

Lemma counterLoop_nonempty (fuel num : nat) (abbr : string) :
  counterLoop fuel num abbr ≠ EmptyString.
Proof.
  revert num abbr. induction fuel as [|fuel IH]; intros num abbr; [done|].
  rewrite counterLoop_S. destruct (num <? 26); [done|apply IH].
Qed.

Lemma toLowerCase_length (s : string) :
  String.length (Js.toLowerCase s) = String.length s.
Proof. induction s as [|a s IH]; simpl; [done|]. by rewrite IH. Qed.

Lemma charAt0_length (p c : string) : Js.charAt0 p = Some c → String.length c = 1.
Proof. destruct p; [done|]. by intros [= <-]. Qed.

Lemma generated_alias_shape (prefix : string) (counter : nat) (used used' : gset string)
    (abbr : string) :
  _generateAbbreviation prefix counter used = Some (abbr, used') →
  abbr ≠ EmptyString
  ∧ (abbr = counterAbbr counter ∨ ((abbr ∉ used) ∧ String.length abbr ≤ 3)).
Proof.
  intros Hgen. unfold _generateAbbreviation in Hgen.
  destruct (Js.split "." prefix) as [|first rest] eqn:Hsplit; [done|].
  simpl in Hgen. destruct (Js.charAt0 first) as [c|] eqn:Hc; [|done].
  simpl in Hgen. pose proof (charAt0_length _ _ Hc) as Hlen.
  destruct (bool_decide (Js.toLowerCase c ∉ used)) eqn:H1.
  { injection Hgen as <- <-. apply bool_decide_eq_true in H1.
    pose proof (toLowerCase_length c) as Hl.
    split; [intros Heq; rewrite Heq in Hl; simpl in Hl; lia|].
    right. split; [done|lia]. }
  match type of Hgen with
  | (if ?b then _ else _) = _ => destruct b eqn:H2
  end.
  - injection Hgen as <- <-. apply andb_true_iff in H2 as [H2 H3].
    apply andb_true_iff in H2 as [_ H2]. apply bool_decide_eq_true in H2.
    apply Nat.leb_le in H3. split; [|by right].
    destruct c as [|x c]; [simpl in Hlen; lia|].
    destruct (map (fun p => default EmptyString (Js.charAt0 p)) rest);
      rewrite ?append_cons; simpl; discriminate.
  - injection Hgen as <- <-. split; [apply counterLoop_nonempty|by left].
Qed.

(** X8: [_generateAbbreviation] throws exactly for a prefix that is empty or
    starts with a dot. Otherwise the alias is not empty, it is added to the
    used ones, and it is either the alias of the counter or an unused one of
    at most three characters. *)
Theorem alias_generation_cases (prefix : string) (counter : nat) (used : gset string) :
  (_generateAbbreviation prefix counter used = None
   ↔ prefix = EmptyString ∨ Js.startsWith prefix "." = true)
  ∧ (∀ abbr used',
       _generateAbbreviation prefix counter used = Some (abbr, used') →
       used' = {[abbr]} ∪ used
       ∧ abbr ≠ EmptyString
       ∧ (abbr = counterAbbr counter ∨ ((abbr ∉ used) ∧ String.length abbr ≤ 3))).
Proof.
  split.
  - split.
    + intros Hnone. destruct prefix as [|c r]; [by left|]. right.
      simpl. destruct (decide ("."%char = c)) as [|Hc]; [done|].
      destruct (generated_when_plain (String c r) counter used) as [x Hx];
        [by exists c, r|congruence].
    + intros [->|Hdot]; [done|]. destruct prefix as [|c r]; [done|].
      simpl in Hdot. destruct (decide ("."%char = c)) as [<-|]; [|done].
      reflexivity.
  - intros abbr used' Hgen.
    split; [by apply generated_marks_used in Hgen as [-> _]|].
    by apply (generated_alias_shape _ _ _ _ _ Hgen).
Qed.

Lemma alias_generation_cases_witness :
  _generateAbbreviation ".a" 0 ∅ = None.
Proof. apply (proj1 (alias_generation_cases ".a" 0 ∅)). by right. Defined.

(** *** The aliases of the counter *)

Lemma counterLoop_acc (fuel num : nat) (abbr : string) :
  counterLoop fuel num abbr = counterLoop fuel num EmptyString +:+ abbr.
Proof.
  revert num abbr. induction fuel as [|fuel IH]; intros num abbr; [done|].
  rewrite !counterLoop_S. destruct (num <? 26); [done|].
  rewrite IH, (IH _ (Js.fromCharCode (97 + num mod 26) +:+ EmptyString)).
  by rewrite append_assoc.
Qed.

Lemma counterAbbr_small (n : nat) :
  n < 26 → counterAbbr n = Js.fromCharCode (97 + n).
Proof.
  intros Hn. unfold counterAbbr. destruct n as [|n]; [done|].
  rewrite counterLoop_S. destruct (Nat.ltb_spec (S n) 26); [|lia].
  by rewrite Nat.mod_small.
Qed.

Lemma counterAbbr_big (n : nat) :
  26 ≤ n →
  counterAbbr n = counterAbbr (n / 26 - 1) +:+ Js.fromCharCode (97 + n mod 26).
Proof.
  intros Hn. unfold counterAbbr. destruct n as [|n]; [lia|].
  rewrite counterLoop_S. destruct (Nat.ltb_spec (S n) 26); [lia|].
  rewrite counterLoop_acc. f_equal.
  pose proof (Nat.div_lt (S n) 26). apply counterLoop_fuel; lia.
Qed.

Lemma append_last_inv (a b : string) (x y : ascii) :
  a +:+ String x EmptyString = b +:+ String y EmptyString → a = b ∧ x = y.
Proof.
  revert b. induction a as [|c a IH]; intros [|d b]; rewrite ?append_cons, ?append_nil_l.
  - by intros [= ->].
  - intros [= -> H]. by destruct b.
  - intros [= -> H]. by destruct a.
  - intros [= -> H]. destruct (IH _ H) as [-> ->]. done.
Qed.

Lemma fromCharCode_letter_inj (i j : nat) :
  i < 26 → j < 26 → ascii_of_nat (97 + i) = ascii_of_nat (97 + j) → i = j.
Proof.
  intros Hi Hj H. apply (f_equal nat_of_ascii) in H.
  rewrite !nat_ascii_embedding in H by lia. lia.
Qed.

Lemma counterAbbr_length (n : nat) :
  (n < 26 → String.length (counterAbbr n) = 1)
  ∧ (26 ≤ n → 2 ≤ String.length (counterAbbr n)).
Proof.
  split; intros Hn.
  - by rewrite counterAbbr_small.
  - rewrite counterAbbr_big, length_append by done.
    change (String.length (Js.fromCharCode (97 + n mod 26))) with 1.
    assert (String.length (counterAbbr (n / 26 - 1)) ≠ 0); [|lia].
    pose proof (counterLoop_nonempty (n / 26 - 1) (n / 26 - 1) EmptyString) as Hne.
    fold (counterAbbr (n / 26 - 1)) in Hne.
    by destruct (counterAbbr (n / 26 - 1)).
Qed.

Lemma counterAbbr_inj (n m : nat) : counterAbbr n = counterAbbr m → n = m.
Proof.
  revert m. induction n as [n IH] using lt_wf_ind. intros m H.
  destruct (Nat.lt_ge_cases n 26) as [Hn|Hn]; destruct (Nat.lt_ge_cases m 26) as [Hm|Hm].
  - rewrite !counterAbbr_small in H by done. injection H as H.
    by apply fromCharCode_letter_inj.
  - apply (f_equal String.length) in H.
    pose proof (proj1 (counterAbbr_length n) Hn).
    pose proof (proj2 (counterAbbr_length m) Hm). lia.
  - apply (f_equal String.length) in H.
    pose proof (proj2 (counterAbbr_length n) Hn).
    pose proof (proj1 (counterAbbr_length m) Hm). lia.
  - rewrite (counterAbbr_big n), (counterAbbr_big m) in H by done.
    apply append_last_inv in H as [Hhead Hlast].
    pose proof (Nat.div_lt n 26). apply IH in Hhead; [|lia].
    apply fromCharCode_letter_inj in Hlast; [|by apply Nat.mod_upper_bound..].
    pose proof (Nat.div_mod_eq n 26). pose proof (Nat.div_mod_eq m 26).
    assert (1 ≤ n / 26) by (apply Nat.div_le_lower_bound; lia).
    assert (1 ≤ m / 26) by (apply Nat.div_le_lower_bound; lia).
    lia.
Qed.

Lemma counterAbbr_letters (n : nat) :
  Forall (fun c => 97 ≤ nat_of_ascii c ≤ 122)
    (String.list_ascii_of_string (counterAbbr n)).
Proof.
  induction n as [n IH] using lt_wf_ind.
  assert (∀ i, i < 26 → 97 ≤ nat_of_ascii (ascii_of_nat (97 + i)) ≤ 122) as Hletter.
  { intros i Hi. rewrite nat_ascii_embedding; lia. }
  destruct (Nat.lt_ge_cases n 26) as [Hn|Hn].
  - rewrite counterAbbr_small by done.
    apply List.Forall_cons; [by apply Hletter|apply List.Forall_nil].
  - rewrite counterAbbr_big, list_ascii_of_append by done.
    pose proof (Nat.div_lt n 26). apply Forall_app. split; [apply IH; lia|].
    apply List.Forall_cons; [|apply List.Forall_nil].
    apply Hletter. by apply Nat.mod_upper_bound.
Qed.

(** X9: the alias of the counter is a non-empty word of lower-case letters,
    and two counters have the same alias only when they are equal. *)
Theorem counter_aliases_are_distinct_words (n m : nat) :
  counterAbbr n ≠ EmptyString
  ∧ Forall (fun c => 97 ≤ nat_of_ascii c ≤ 122)
      (String.list_ascii_of_string (counterAbbr n))
  ∧ (counterAbbr n = counterAbbr m ↔ n = m).
Proof.
  split; [apply counterLoop_nonempty|]. split; [apply counterAbbr_letters|].
  split; [apply counterAbbr_inj|by intros ->].
Qed.

(** ** The candidates *)

Lemma compareEntries_precedes (x y : string * nat) :
  (compareEntries x y <= 0)%Z ↔ precedes x y.
Proof.
  unfold compareEntries, precedes.
  destruct (Nat.eqb_spec y.2 x.2) as [Heq|Hne]; simpl; lia.
Qed.

Lemma precedes_trans (x y z : string * nat) : precedes x y → precedes y z → precedes x z.
Proof. unfold precedes. lia. Qed.

Lemma sortEntries_StronglySorted (l : list (string * nat)) :
  StronglySorted precedes (sortEntries l).
Proof.
  apply Sorted_StronglySorted; [exact precedes_trans|].
  eapply Sorted_ind with (P := Sorted precedes); [constructor| |apply sortEntries_Sorted].
  intros x l' _ IH Hhd. constructor; [exact IH|].
  destruct Hhd as [|y l'' Hy]; constructor. by apply compareEntries_precedes.
Qed.

Lemma StronglySorted_lookup {A : Type} (R : A → A → Prop) (l : list A) (i j : nat)
    (x y : A) :
  StronglySorted R l → i < j → l !! i = Some x → l !! j = Some y → R x y.
Proof.
  intros Hl. revert i j. induction Hl as [|z l Hl IH Hall]; intros i j Hij Hi Hj.
  - done.
  - destruct j as [|j]; [lia|]. simpl in Hj. destruct i as [|i].
    + injection Hi as <-. rewrite List.Forall_forall in Hall.
      apply Hall. by eapply list_elem_of_In, list_elem_of_lookup_2.
    + simpl in Hi. apply (IH i j); [lia|done|done].
Qed.

(** X10: the candidates are the counted prefixes that reach the threshold,
    each once, in the order of decreasing count and, among equal counts, of
    increasing length. *)
Theorem candidates_filtered_and_ordered (cfg : BrevitConfig) (paths : list string) :
  (∀ e, e ∈ frequentPrefixes cfg paths
        ↔ e ∈ prefixCounts paths ∧ (abbreviationThreshold cfg ≤ Z.of_nat e.2)%Z)
  ∧ NoDup (frequentPrefixes cfg paths).*1
  ∧ (∀ i j x y, i < j →
       frequentPrefixes cfg paths !! i = Some x →
       frequentPrefixes cfg paths !! j = Some y →
       y.2 < x.2 ∨ (y.2 = x.2 ∧ String.length x.1 ≤ String.length y.1)).
Proof.
  split; [|split; [apply frequentPrefixes_NoDup|]].
  - intros e. unfold frequentPrefixes. rewrite sortEntries_Permutation.
    rewrite list_elem_of_In, filter_In, <- list_elem_of_In.
    rewrite Z.leb_le. done.
  - intros i j x y Hij Hi Hj.
    apply (StronglySorted_lookup precedes _ i j x y
             (sortEntries_StronglySorted _) Hij Hi Hj).
Qed.

Lemma candidates_filtered_and_ordered_witness :
  2 < 3 ∨ (2 = 3 ∧ String.length "aa" ≤ String.length "b").
Proof.
  apply (proj2 (proj2 (candidates_filtered_and_ordered defaultConfig
                         ["b.x"; "aa.x"; "aa.y"; "b.y"; "aa.z"]))
           0 1 ("aa", 3) ("b", 2)); [lia|reflexivity|reflexivity].
Defined.

(** ** The strategy *)

Lemma select_table (cfg : ClientConfig) (a : Analysis) :
  _selectOptimalStrategy cfg a
  = if hasUniformArrays a then
      flattenStrategy 100 "Uniform object arrays detected - tabular format optimal"
    else if isImage a then imageStrategy cfg
    else if isLongText a then textStrategy cfg
    else if hasPrimitiveArrays a then
      flattenStrategy 80 "Primitive arrays detected - comma-separated format optimal"
    else if hasNestedObjects a || isModerate a then
      flattenStrategy 70 "Nested objects detected - flatten format optimal"
    else flattenStrategy 50 "Default flatten strategy".
Proof.
  destruct a as [ty d u pr ne tl ac oc cx].
  unfold _selectOptimalStrategy, candidateStrategies, isImage, isLongText, isModerate.
  simpl. destruct u, pr, ne, cx, ty as [[]|]; reflexivity.
Qed.

(** X11: the strategy is decided by this table: [Flatten] for a uniform
    array, else the image strategy for image data, else the text strategy
    for a long text, else [Flatten]; the [ToYaml] candidate of score 60 is
    never selected, the [Flatten] candidate of score 70 being pushed before
    it whenever it is pushed. *)
Theorem strategy_decision_table (cfg : ClientConfig) (a : Analysis) :
  _selectOptimalStrategy cfg a
  = (if hasUniformArrays a then
       flattenStrategy 100 "Uniform object arrays detected - tabular format optimal"
     else if isImage a then imageStrategy cfg
     else if isLongText a then textStrategy cfg
     else if hasPrimitiveArrays a then
       flattenStrategy 80 "Primitive arrays detected - comma-separated format optimal"
     else if hasNestedObjects a || isModerate a then
       flattenStrategy 70 "Nested objects detected - flatten format optimal"
     else flattenStrategy 50 "Default flatten strategy")
  ∧ name (_selectOptimalStrategy cfg a) ≠ "ToYaml"
  ∧ strategyJsonMode (_selectOptimalStrategy cfg a) ≠ Some ToYaml.
Proof.
  split; [apply select_table|]. rewrite select_table.
  destruct (hasUniformArrays a), (isImage a), (isLongText a), (hasPrimitiveArrays a),
    (hasNestedObjects a || isModerate a); done.
Qed.

(** ** The analysis *)

Lemma analysis_eq (a b : Analysis) :
  type a = type b → depth a = depth b →
  hasUniformArrays a = hasUniformArrays b →
  hasPrimitiveArrays a = hasPrimitiveArrays b →
  hasNestedObjects a = hasNestedObjects b →
  textLength a = textLength b → arrayCount a = arrayCount b →
  objectCount a = objectCount b → complexity a = complexity b → a = b.
Proof. destruct a, b. simpl. by intros -> -> -> -> -> -> -> -> ->. Qed.

Lemma analyzeItems_measured (d : nat) (vs : list value) (a : Analysis) :
  Forall (fun v => ∀ d' a', analyze v d' a' = measured v d' a') vs →
  analyzeItems d vs a = measuredAll vs d a.
Proof.
  intros Hvs. revert a. induction Hvs as [|v vs Hv _ IH]; intros a; simpl.
  - apply analysis_eq; simpl; rewrite ?orb_false_r; try done; lia.
  - rewrite Hv, IH. apply analysis_eq; simpl; rewrite ?orb_assoc; try done; lia.
Qed.

Lemma analyzeEntries_items (d : nat) (es : list (string * value)) (a : Analysis) :
  analyzeEntries d es a = analyzeItems d (List.map snd es) a.
Proof. revert a. induction es as [|[k v] es IH]; intros a; simpl; [done|apply IH]. Qed.

Lemma map_snd_entries {B : Type} (f : value → B) (es : list (string * value)) :
  List.map (fun '(_, x) => f x) es = List.map f (List.map snd es).
Proof. induction es as [|[k v] es IH]; simpl; [done|]. by rewrite IH. Qed.

Lemma existsb_snd_entries (f : value → bool) (es : list (string * value)) :
  existsb (fun '(_, x) => f x) es = existsb f (List.map snd es).
Proof. induction es as [|[k v] es IH]; simpl; [done|]. by rewrite IH. Qed.

Lemma deepest_height (d : nat) (vs : list value) :
  Nat.max d (foldr (fun x acc => Nat.max (S d + heightOf x) acc) 0 vs)
  = d + heightAbove (List.map heightOf vs).
Proof.
  unfold heightAbove. induction vs as [|v vs IH]; cbn [fold_right List.map]; lia.
Qed.

Lemma some_object (vs : list value) :
  existsb (fun x => 0 <? objectsIn x) vs = (0 <? sum_list (List.map objectsIn vs)).
Proof.
  induction vs as [|v vs IH]; simpl; [done|]. rewrite IH.
  destruct (Nat.ltb_spec 0 (objectsIn v)), (Nat.ltb_spec 0 (sum_list (map objectsIn vs))),
    (Nat.ltb_spec 0 (objectsIn v + sum_list (map objectsIn vs))); simpl; try done; lia.
Qed.

Ltac analysis_fields :=
  cbn [type depth hasUniformArrays hasPrimitiveArrays hasNestedObjects textLength
       arrayCount objectCount complexity measured measuredAll noteObject noteDepth
       noteArray noteText heightOf arraysIn objectsIn textIn anyArray objectsInside].

Lemma analyze_measured (v : value) :
  ∀ d a, analyze v d a = measured v d a.
Proof.
  induction v as [| b | repr | s | entries IH | items IH] using value_ind; intros d a;
    try (apply analysis_eq; simpl; try (destruct (0 <? d); simpl);
         rewrite ?orb_false_r; try done; lia).
  - change (analyze (VObj entries) d a)
      with (analyzeEntries d entries (noteObject d (noteDepth d a))).
    rewrite analyzeEntries_items, analyzeItems_measured
      by (apply Forall_fmap; exact IH).
    pose proof (deepest_height d (List.map snd entries)) as Hdeep.
    pose proof (some_object (List.map snd entries)) as Hobj.
    apply analysis_eq; analysis_fields;
      rewrite ?map_snd_entries, ?existsb_snd_entries; try done; try lia.
    rewrite Hobj. replace (1 + sum_list (map objectsIn (map snd entries)) - 1)
        with (sum_list (map objectsIn (map snd entries))) by lia.
      destruct (Nat.ltb_spec 0 d), (hasNestedObjects a); simpl; try done.
  - change (analyze (VArr items) d a)
      with (analyzeItems d items (noteArray items (noteDepth d a))).
    rewrite analyzeItems_measured by done.
    pose proof (deepest_height d items) as Hdeep.
    pose proof (some_object items) as Hobj.
    apply analysis_eq; analysis_fields; try done; try lia.
    + unfold isUniform. destruct (_isUniformObjectArray items), (hasUniformArrays a); done.
    + destruct (_isPrimitiveArray items), (hasPrimitiveArrays a); done.
    + rewrite Hobj. by destruct (0 <? d).
Qed.

(** X12: the analysis of a tree counts its arrays and its objects, adds up
    the lengths of its strings, takes its height as depth, and raises its
    flags exactly when one of its arrays is uniform or primitive and when
    an object lies below the root. *)
Theorem analysis_measures_the_tree (cfg : ClientConfig) (data : value) :
  arrayCount (_analyzeDataStructure cfg data) = arraysIn data
  ∧ objectCount (_analyzeDataStructure cfg data) = objectsIn data
  ∧ textLength (_analyzeDataStructure cfg data) = textIn data
  ∧ depth (_analyzeDataStructure cfg data) = heightOf data
  ∧ hasUniformArrays (_analyzeDataStructure cfg data) = anyArray isUniform data
  ∧ hasPrimitiveArrays (_analyzeDataStructure cfg data)
    = anyArray _isPrimitiveArray data
  ∧ hasNestedObjects (_analyzeDataStructure cfg data) = (0 <? objectsInside data).
Proof.
  unfold _analyzeDataStructure. simpl. rewrite analyze_measured. simpl. done.
Qed.

(** ** [brevity] and [optimize] *)

Lemma tempConfig_tree (cfg : ClientConfig) (v : value) :
  isObjectLike v = true →
  tempConfig cfg (_selectOptimalStrategy cfg (_analyzeDataStructure cfg v))
  = withJsonMode Flatten cfg.
Proof.
  intros Hv. rewrite select_table. set (a := _analyzeDataStructure cfg v).
  assert (isImage a = false) as Hi by (subst a; by destruct v).
  assert (isLongText a = false) as Hl by (subst a; by destruct v).
  rewrite Hi, Hl.
  destruct (hasUniformArrays a), (hasPrimitiveArrays a),
    (hasNestedObjects a || isModerate a); reflexivity.
Qed.

Lemma strategy_text (cfg : ClientConfig) (s : string) :
  _selectOptimalStrategy cfg (_analyzeDataStructure cfg (VStr s))
  = if (longTextThreshold cfg <? Z.of_nat (String.length s))%Z then textStrategy cfg
    else flattenStrategy 50 "Default flatten strategy".
Proof.
  rewrite select_table. unfold _analyzeDataStructure, isImage, isLongText, isModerate.
  simpl. by destruct (longTextThreshold cfg <? Z.of_nat (String.length s))%Z.
Qed.

Section BrevityAndOptimize.
Context {Binary : Type}.
Variable JSON_parse : string → option value.
Variable JSON_stringify : value → nat → string.

(** [JSON.parse] gives an object or an array for a text that starts and
    ends with braces or brackets. *)
Hypothesis parse_structured :
  ∀ s v, looksLikeJson s = true → JSON_parse s = Some v → isObjectLike v = true.

Lemma brevityText_optimizeText (client : @BrevitClient Binary) (cfg : ClientConfig)
    (s : string) (intent : option string) :
  longTextThreshold cfg = longTextThreshold (_config client) →
  brevityText client s intent = optimizeText (withConfig client cfg) s intent.
Proof.
  intros Hth. unfold brevityText, optimizeText. rewrite strategy_text. simpl.
  rewrite Hth. by destruct (longTextThreshold (_config client) <? _)%Z.
Qed.

Lemma brevityObject_flatten (client : @BrevitClient Binary) (v : value)
    (intent : option string) :
  isObjectLike v = true →
  brevityObject JSON_parse JSON_stringify client v intent
  = if namedBuffer v then Some (_imageOptimizer client (RawValue v) intent)
    else _flattenObject (encoderOptions (_config client)) v.
Proof.
  intros Hv. unfold brevityObject. rewrite (tempConfig_tree _ _ Hv).
  by destruct v.
Qed.

Lemma optimize_parsed (client : @BrevitClient Binary) (s : string) (v : value)
    (intent : option string) :
  looksLikeJson s = true → JSON_parse s = Some v →
  optimize JSON_parse JSON_stringify
    (withConfig client (withJsonMode Flatten (_config client))) (RawValue (VStr s)) intent
  = _flattenObject (encoderOptions (_config client)) v.
Proof.
  intros Hlooks Hparse. pose proof (parse_structured s v Hlooks Hparse) as Hv.
  unfold optimize. rewrite Hlooks, Hparse. by destruct v.
Qed.

(** X13: [brevity] gives what [optimize] gives with the JSON mode set to
    [Flatten], so that the configured JSON mode has no effect on it, except
    on one kind of input: the JSON text of an object whose [constructor]
    member is named [Buffer]. [optimize] flattens the object it parses from
    such a text; [brevity] passes the parsed object to [optimize], which
    makes its test for image data on it and hands it to the image optimizer.
    An object or an array that does not pass this test is always encoded by
    [_flattenObject]. *)
Theorem brevity_is_optimize_with_flatten (client : @BrevitClient Binary)
    (rawData : RawData) (intent : option string) :
  ((∀ s v, rawData = RawValue (VStr s) → looksLikeJson s = true →
           JSON_parse s = Some v → namedBuffer v = false) →
   brevity JSON_parse JSON_stringify client rawData intent
   = optimize JSON_parse JSON_stringify
       (withConfig client (withJsonMode Flatten (_config client))) rawData intent)
  ∧ (∀ v, rawData = RawValue v → isObjectLike v = true →
       brevity JSON_parse JSON_stringify client rawData intent
       = if namedBuffer v then Some (_imageOptimizer client rawData intent)
         else _flattenObject (encoderOptions (_config client)) v)
  ∧ (∀ s v, rawData = RawValue (VStr s) → looksLikeJson s = true →
       JSON_parse s = Some v →
       brevity JSON_parse JSON_stringify client rawData intent
       = (if namedBuffer v then Some (_imageOptimizer client (RawValue v) intent)
          else _flattenObject (encoderOptions (_config client)) v)
       ∧ optimize JSON_parse JSON_stringify
           (withConfig client (withJsonMode Flatten (_config client))) rawData intent
         = _flattenObject (encoderOptions (_config client)) v).
Proof.
  assert (∀ s v, looksLikeJson s = true → JSON_parse s = Some v →
            brevity JSON_parse JSON_stringify client (RawValue (VStr s)) intent
            = if namedBuffer v then Some (_imageOptimizer client (RawValue v) intent)
              else _flattenObject (encoderOptions (_config client)) v) as Hparsed.
  { intros s v Hlooks Hparse. unfold brevity. rewrite Hlooks, Hparse.
    apply brevityObject_flatten, (parse_structured s v Hlooks Hparse). }
  assert (∀ v, isObjectLike v = true →
            brevity JSON_parse JSON_stringify client (RawValue v) intent
            = if namedBuffer v then Some (_imageOptimizer client (RawValue v) intent)
              else _flattenObject (encoderOptions (_config client)) v) as Htree.
  { intros v Hv. destruct v; try done; unfold brevity;
      (destruct (namedBuffer _) eqn:Hb; [done|]);
      by rewrite brevityObject_flatten, Hb. }
  split; [|split].
  - intros Hplain.
    destruct rawData as [[| b | repr | s | entries | items]|bin]; try reflexivity.
    + destruct (looksLikeJson s) eqn:Hlooks.
      2:{ unfold brevity, optimize. rewrite Hlooks. f_equal.
          by apply brevityText_optimizeText. }
      destruct (JSON_parse s) as [v|] eqn:Hparse.
      2:{ unfold brevity, optimize. rewrite Hlooks, Hparse. f_equal.
          by apply brevityText_optimizeText. }
      rewrite (Hparsed s v Hlooks Hparse), (optimize_parsed _ s v _ Hlooks Hparse).
      by rewrite (Hplain s v eq_refl Hlooks Hparse).
    + rewrite (Htree (VObj entries) eq_refl). unfold optimize.
      by destruct (namedBuffer (VObj entries)).
    + rewrite (Htree (VArr items) eq_refl). reflexivity.
  - intros v -> Hv. by apply Htree.
  - intros s v -> Hlooks Hparse. split; [by apply Hparsed|by apply optimize_parsed].
Qed.

End BrevityAndOptimize.

(** A parser that knows the empty object and the empty array only. *)
Definition toyParse (s : string) : option value :=
  if bool_decide (s = "{}") then Some (VObj [])
  else if bool_decide (s = "[]") then Some (VArr [])
  else None.

Lemma brevity_is_optimize_with_flatten_witness :
  brevity (Binary := unit) toyParse (fun _ _ => EmptyString)
    {| _config := withJsonMode ToYaml defaultClientConfig;
       _textOptimizer := fun s _ => s; _imageOptimizer := fun _ _ => "image" |}
    (RawValue (VStr "[]")) None
  = Some EmptyString.
Proof.
  assert (∀ s v, looksLikeJson s = true → toyParse s = Some v → isObjectLike v = true)
    as Hparse.
  { intros s v _. unfold toyParse. repeat case_bool_decide; by intros [= <-]. }
  rewrite (proj1 (brevity_is_optimize_with_flatten toyParse (fun _ _ => EmptyString)
                    Hparse _ (RawValue (VStr "[]")) None)).
  - vm_compute. reflexivity.
  - intros s v [= <-] _ [= <-]. reflexivity.
Defined.

(** ** Escaping loses no string *)

Lemma escapeQuotes_head (s r : string) : Js.escapeQuotes s ≠ String Js.dquote r.
Proof.
  destruct s as [|a s]; simpl; [done|].
  destruct (decide (a = Js.dquote)) as [->|Hne]; [done|]. by intros [= ->].
Qed.

Lemma escapeQuotes_inj (s1 s2 : string) :
  Js.escapeQuotes s1 = Js.escapeQuotes s2 → s1 = s2.
Proof.
  revert s2. induction s1 as [|a1 s1 IH]; intros [|a2 s2]; simpl.
  - done.
  - by destruct (decide (a2 = Js.dquote)).
  - by destruct (decide (a1 = Js.dquote)).
  - destruct (decide (a1 = Js.dquote)) as [->|H1],
      (decide (a2 = Js.dquote)) as [->|H2].
    + intros [= H]. f_equal. by apply IH.
    + intros [= <- H]. symmetry in H. by apply escapeQuotes_head in H.
    + intros [= -> H]. by apply escapeQuotes_head in H.
    + intros [= -> H]. f_equal. by apply IH.
Qed.

Lemma needsQuoting_quote (r : string) : needsQuoting (String Js.dquote r) = true.
Proof. unfold needsQuoting. simpl. by rewrite !orb_true_r. Qed.

(** X14: two strings with the same escaped text are equal: the quoting of
    [_escapeValue] can be undone. *)
Theorem escaping_strings_is_injective (s1 s2 : string) :
  _escapeValue (VStr s1) = _escapeValue (VStr s2) → s1 = s2.
Proof.
  unfold _escapeValue. simpl.
  destruct (needsQuoting s1) eqn:H1, (needsQuoting s2) eqn:H2; intros [= H].
  - apply append_last_inv in H as [H _]. by apply escapeQuotes_inj.
  - subst s2. rewrite append_cons in H2. by rewrite needsQuoting_quote in H2.
  - subst s1. rewrite append_cons in H1. by rewrite needsQuoting_quote in H1.
  - exact H.
Qed.

Lemma escaping_strings_is_injective_witness : "a,b" = "a,b".
Proof. apply escaping_strings_is_injective. reflexivity. Defined.

(** ** The path of a line *)

(** X15: the path of a line [path:value] is [path], and the path of a line
    [base[...]...:value] is [base]: what follows the first bracket takes no
    part in the counting of prefixes. *)
Theorem path_stops_at_colon_or_bracket (path more v : string) :
  Js.includes ":" path = false →
  Js.includes "[" path = false →
  pathOfLine (path +:+ ":" +:+ v) = path
  ∧ (path ≠ EmptyString → Js.includes ":" more = false →
     pathOfLine (path +:+ "[" +:+ more +:+ ":" +:+ v) = path).
Proof.
  intros Hcolon Hbracket. split.
  - unfold pathOfLine. change (":" +:+ v) with (String ":" v).
    rewrite (indexOf_first _ _ _ Hcolon), Nat2Z.id, substringTo_append.
    rewrite (indexOf_absent _ _ Hbracket).
    destruct (Z.ltb_spec 0 (Z.of_nat (String.length path))) as [|Hle]; [done|].
    destruct path; [done|simpl in Hle; lia].
  - intros Hne Hmore. unfold pathOfLine.
    change ("[" +:+ more +:+ ":" +:+ v) with (String "[" more +:+ String ":" v).
    rewrite <- append_assoc.
    assert (Js.includes ":" (path +:+ String "[" more) = false) as Hpath.
    { rewrite includes_append, Hcolon. simpl. exact Hmore. }
    rewrite (indexOf_first _ _ _ Hpath), Nat2Z.id, substringTo_append.
    rewrite (indexOf_first _ _ _ Hbracket), Nat2Z.id, substringTo_append.
    destruct (Z.ltb_spec 0 (Z.of_nat (String.length (path +:+ String "[" more))))
      as [|Hle]; [|rewrite length_append in Hle; simpl in Hle; lia].
    destruct (Z.ltb_spec 0 (Z.of_nat (String.length path))) as [|Hle]; [done|].
    destruct path; [done|simpl in Hle; lia].
Qed.

Lemma path_stops_at_colon_or_bracket_witness :
  pathOfLine "order.items[2]{sku,qty}:" = "order.items".
Proof.
  apply (proj2 (path_stops_at_colon_or_bracket "order.items" "2]{sku,qty}" EmptyString
                  eq_refl eq_refl)); [done|reflexivity].
Defined.

(** ** Counting the prefixes *)

Lemma join_two (sep x y : string) (l : list string) :
  Js.join sep (x :: y :: l) = x +:+ sep +:+ Js.join sep (y :: l).
Proof. reflexivity. Qed.

Lemma split_nonempty (c : ascii) (s : string) : Js.split c s ≠ [].
Proof.
  destruct s as [|a s]; simpl; [done|].
  destruct (decide (a = c)); [done|]. by destruct (Js.split c s).
Qed.

Lemma split_cons_other (c a : ascii) (s : string) :
  a ≠ c →
  ∃ h t, Js.split c s = h :: t ∧ Js.split c (String a s) = String a h :: t.
Proof.
  intros Hne. simpl. destruct (decide (a = c)); [done|].
  destruct (Js.split c s) as [|h t] eqn:Hs; [by apply split_nonempty in Hs|].
  by exists h, t.
Qed.

Lemma join_split (c : ascii) (s : string) :
  Js.join (String c EmptyString) (Js.split c s) = s.
Proof.
  induction s as [|a s IH]; [done|]. destruct (decide (a = c)) as [->|Hne].
  - simpl. destruct (decide (c = c)); [|done].
    destruct (Js.split c s) as [|h t] eqn:Hs; [by apply split_nonempty in Hs|].
    rewrite join_two, IH. reflexivity.
  - destruct (split_cons_other c a s Hne) as (h & t & Hs & ->).
    rewrite Hs in IH. destruct t as [|y t].
    + simpl in *. by rewrite IH.
    + rewrite join_two in *. rewrite append_cons. by rewrite IH.
Qed.

Lemma split_app (c : ascii) (a b : string) :
  Js.split c (a +:+ String c b) = Js.split c a ++ Js.split c b.
Proof.
  induction a as [|x a IH].
  - rewrite append_nil_l. simpl. by destruct (decide (c = c)).
  - rewrite append_cons. destruct (decide (x = c)) as [->|Hne].
    + simpl. destruct (decide (c = c)); [|done]. by rewrite IH.
    + destruct (split_cons_other c x a Hne) as (h & t & Hs & ->).
      destruct (split_cons_other c x (a +:+ String c b) Hne) as (h' & t' & Hs' & ->).
      rewrite IH, Hs in Hs'. by injection Hs' as <- <-.
Qed.

Lemma split_dot_free (c : ascii) (s : string) :
  Forall (fun p => Js.includes c p = false) (Js.split c s).
Proof.
  induction s as [|a s IH]; [by repeat constructor|].
  destruct (decide (a = c)) as [->|Hne].
  - simpl. destruct (decide (c = c)); [|done]. by constructor.
  - destruct (split_cons_other c a s Hne) as (h & t & Hs & ->).
    rewrite Hs in IH. apply Forall_cons in IH as [Hh Ht]. constructor; [|done].
    simpl. by destruct (decide (a = c)).
Qed.

Lemma split_free (c : ascii) (p : string) :
  Js.includes c p = false → Js.split c p = [p].
Proof.
  induction p as [|a p IH]; simpl; [done|].
  destruct (decide (a = c)); [done|]. intros H. by rewrite (IH H).
Qed.

Lemma split_join (c : ascii) (l : list string) :
  l ≠ [] → Forall (fun p => Js.includes c p = false) l →
  Js.split c (Js.join (String c EmptyString) l) = l.
Proof.
  induction l as [|x l IH]; [done|]. intros _ Hall.
  apply Forall_cons in Hall as [Hx Hl]. destruct l as [|y l].
  - by apply split_free.
  - rewrite join_two.
    change (String c EmptyString +:+ Js.join (String c EmptyString) (y :: l))
      with (String c (Js.join (String c EmptyString) (y :: l))).
    rewrite split_app, (split_free _ _ Hx), IH by done. done.
Qed.

Lemma join_app (sep : string) (l1 l2 : list string) :
  l1 ≠ [] → l2 ≠ [] →
  Js.join sep (l1 ++ l2) = Js.join sep l1 +:+ sep +:+ Js.join sep l2.
Proof.
  induction l1 as [|x l1 IH]; [done|]. intros _ Hl2. destruct l1 as [|y l1].
  - destruct l2 as [|z l2]; [done|]. reflexivity.
  - change ((x :: y :: l1) ++ l2) with (x :: y :: (l1 ++ l2)).
    rewrite !join_two. change (y :: l1 ++ l2) with ((y :: l1) ++ l2).
    rewrite IH by done. by rewrite !append_assoc.
Qed.

(** The prefixes [countPath] counts for a path. *)
Lemma extendsPrefix_iff (k path : string) :
  extendsPrefix k path = true
  ↔ ∃ i, 1 ≤ i < length (Js.split "." path)
         ∧ k = Js.join "." (take i (Js.split "." path)).
Proof.
  unfold extendsPrefix. rewrite startsWith_append. split.
  - intros [r ->]. rewrite append_assoc.
    change ("." +:+ r) with (String "." r). rewrite split_app.
    exists (length (Js.split "." k)).
    pose proof (split_nonempty "." k). pose proof (split_nonempty "." r).
    rewrite length_app, take_app_length. split; [|by rewrite join_split].
    destruct (Js.split "." k), (Js.split "." r); simpl; try done; lia.
  - intros (i & Hi & ->). exists (Js.join "." (drop i (Js.split "." path))).
    rewrite append_assoc.
    rewrite <- (join_split "." path) at 1.
    rewrite <- (take_drop i (Js.split "." path)) at 1.
    apply join_app.
    + intros H%(f_equal length). rewrite length_take in H. simpl in H. lia.
    + intros H%(f_equal length). rewrite length_drop in H. simpl in H. lia.
Qed.

Lemma prefixes_distinct (parts : list string) (n : nat) :
  Forall (fun p => Js.includes "." p = false) parts → n < length parts →
  NoDup (List.map (fun i => Js.join "." (take i parts)) (seq 1 n)).
Proof.
  intros Hfree Hn. apply NoDup_fmap_2_strong; [|apply NoDup_seq].
  intros i j Hi%elem_of_seq Hj%elem_of_seq Heq.
  apply (f_equal (Js.split ".")) in Heq.
  rewrite !split_join in Heq.
  - apply (f_equal length) in Heq. rewrite !length_take in Heq. lia.
  - intros H%(f_equal length). rewrite length_take in H. simpl in H. lia.
  - by apply Forall_take.
  - intros H%(f_equal length). rewrite length_take in H. simpl in H. lia.
  - by apply Forall_take.
Qed.

Lemma mapGet_mapSet {V : Type} (k k' : string) (v : V) (m : list (string * V)) :
  mapGet k (mapSet k' v m) = if decide (k' = k) then Some v else mapGet k m.
Proof.
  induction m as [|[k1 v1] m IH]; simpl.
  - by destruct (decide (k' = k)).
  - destruct (decide (k1 = k')) as [->|Hne]; simpl.
    + by destruct (decide (k' = k)).
    + destruct (decide (k1 = k)) as [->|]; [|exact IH].
      by destruct (decide (k' = k)).
Qed.

Lemma count_keys (ks : list string) (k : string) (m : list (string * nat)) :
  NoDup ks →
  mapGet k (foldl (fun counts key =>
                     mapSet key (default 0 (mapGet key counts) + 1) counts) m ks)
  = if decide (k ∈ ks) then Some (default 0 (mapGet k m) + 1) else mapGet k m.
Proof.
  intros Hnd. revert m. induction Hnd as [|key ks Hkey _ IH]; intros m; simpl.
  - destruct (decide (k ∈ [])) as [H|]; [by apply elem_of_nil in H|done].
  - rewrite IH, mapGet_mapSet.
    destruct (decide (k ∈ ks)) as [Hin|Hout], (decide (key = k)) as [->|Hne].
    + done.
    + destruct (decide (k ∈ key :: ks)) as [|Hno]; [done|].
      destruct Hno. by right.
    + destruct (decide (k ∈ k :: ks)) as [|Hno]; [done|]. destruct Hno. by left.
    + destruct (decide (k ∈ key :: ks)) as [[->|Hin]%elem_of_cons|]; done.
Qed.

Lemma countPath_get (m : list (string * nat)) (path k : string) :
  mapGet k (countPath m path)
  = if extendsPrefix k path then Some (default 0 (mapGet k m) + 1) else mapGet k m.
Proof.
  unfold countPath. set (parts := Js.split "." path).
  set (keys := List.map (fun i => Js.join "." (take i parts)) (seq 1 (length parts - 1))).
  assert (∀ (l : list nat) (m0 : list (string * nat)),
            foldl (fun counts i =>
                     mapSet (Js.join "." (take i parts))
                       (default 0 (mapGet (Js.join "." (take i parts)) counts) + 1)
                       counts) m0 l
            = foldl (fun counts key =>
                       mapSet key (default 0 (mapGet key counts) + 1) counts) m0
                (List.map (fun i => Js.join "." (take i parts)) l)) as Hfold.
  { induction l as [|i l IH]; intros m0; simpl; [done|apply IH]. }
  rewrite Hfold. fold keys. rewrite count_keys.
  - assert (k ∈ keys ↔ extendsPrefix k path = true) as Hiff.
    { rewrite extendsPrefix_iff. fold parts. unfold keys.
      rewrite list_elem_of_In, in_map_iff. split.
      - intros (i & <- & Hi%in_seq). exists i. split; [lia|done].
      - intros (i & Hi & ->). exists i. split; [done|]. apply in_seq. lia. }
    destruct (decide (k ∈ keys)) as [Hin|Hout].
    + apply Hiff in Hin. by rewrite Hin.
    + destruct (extendsPrefix k path); [|done]. destruct Hout. by apply Hiff.
  - apply prefixes_distinct; [apply split_dot_free|].
    pose proof (split_nonempty "." path). fold parts in H |- *.
    destruct parts; simpl; [done|lia].
Qed.

Lemma prefixCounts_from (paths : list string) (k : string) (m : list (string * nat)) :
  mapGet k (foldl countPath m paths)
  = if length (List.filter (extendsPrefix k) paths) =? 0 then mapGet k m
    else Some (default 0 (mapGet k m)
               + length (List.filter (extendsPrefix k) paths)).
Proof.
  revert m. induction paths as [|path paths IH]; intros m; simpl; [done|].
  rewrite IH, countPath_get.
  destruct (extendsPrefix k path); simpl; [|done].
  destruct (length (List.filter (extendsPrefix k) paths)); simpl; f_equal; lia.
Qed.

(** X16: the count of a prefix is the number of paths that continue it
    with a dot, and a prefix that no path continues is not counted. *)
Theorem prefix_count_is_number_of_extensions (paths : list string) (k : string) :
  mapGet k (prefixCounts paths)
  = if length (List.filter (extendsPrefix k) paths) =? 0 then None
    else Some (length (List.filter (extendsPrefix k) paths)).
Proof. unfold prefixCounts. by rewrite prefixCounts_from. Qed.

(** ** What is worth an alias *)

Lemma mapGet_elem {V : Type} (m : list (string * V)) (k : string) (v : V) :
  NoDup m.*1 → (k, v) ∈ m → mapGet k m = Some v.
Proof.
  induction m as [|[k' v'] m IH]; simpl.
  - by intros _ ?%elem_of_nil.
  - rewrite NoDup_cons. intros [Hk Hm] [[= -> ->]|Hin]%elem_of_cons.
    + by destruct (decide (k' = k')).
    + destruct (decide (k' = k)) as [->|]; [|by apply IH].
      destruct Hk. apply list_elem_of_fmap. by exists (k, v).
Qed.

(** X17: every prefix of the table is continued by at least two paths, and
    by as many as the threshold asks; its alias is not empty and is at least
    two characters shorter; and the net-savings test holds for the number of
    paths that continue it. *)
Theorem accepted_prefix_occurs_twice (cfg : BrevitConfig) (paths : list string)
    (tbl : list (string * string)) (defs : list string) (p a : string) :
  _generateAbbreviations cfg paths = Some (tbl, defs) →
  (p, a) ∈ tbl →
  2 ≤ length (List.filter (extendsPrefix p) paths)
  ∧ (abbreviationThreshold cfg
     ≤ Z.of_nat (length (List.filter (extendsPrefix p) paths)))%Z
  ∧ a ≠ EmptyString
  ∧ String.length a + 2 ≤ String.length p
  ∧ netBeneficial p a (length (List.filter (extendsPrefix p) paths)) = true.
Proof.
  intros Hgen Hin. destruct (generated_table _ _ _ _ Hgen) as (_ & _ & _ & Htbl).
  destruct (enableAbbreviations cfg) eqn:Hen.
  2:{ unfold _generateAbbreviations in Hgen. rewrite Hen in Hgen. simpl in Hgen.
      injection Hgen as <- _. by apply elem_of_nil in Hin. }
  rewrite (Htbl eq_refl) in Hin.
  apply elem_of_accepted in Hin as (i & c & Hi & Ha & Hnet).
  assert ((p, c) ∈ frequentPrefixes cfg paths) as Hcand
    by (by eapply list_elem_of_lookup_2).
  apply frequentPrefixes_threshold in Hcand as [Hcount Hth]. simpl in Hth.
  apply (mapGet_elem _ _ _ (prefixCounts_NoDup paths)) in Hcount.
  unfold prefixCounts in Hcount. rewrite prefixCounts_from in Hcount. simpl in Hcount.
  destruct (length (List.filter (extendsPrefix p) paths) =? 0); [done|].
  injection Hcount as Hc. rewrite Hc.
  assert (a ≠ EmptyString) as Hne.
  { unfold aliasAt in Ha.
    destruct (stateAfter (frequentPrefixes cfg paths) i) as [st|]; [|done].
    simpl in Ha. rewrite Hi in Ha. simpl in Ha.
    destruct (_generateAbbreviation p (abbrCounter st) (usedAbbrs st))
      as [[a' u]|] eqn:Hg; [|done].
    simpl in Ha. injection Ha as ->. by apply (generated_alias_shape _ _ _ _ _ Hg). }
  pose proof (netBeneficial_long _ _ _ Hnet) as Hlong.
  split; [|done].
  assert (0 < String.length a) by (destruct a; [done|simpl; lia]).
  unfold netBeneficial, definitionCost, savings in Hnet. apply Z.ltb_lt in Hnet. nia.
Qed.

Lemma accepted_prefix_occurs_twice_witness :
  2 ≤ length (List.filter (extendsPrefix "order.customer") orderPaths).
Proof.
  assert (_generateAbbreviations defaultConfig orderPaths
          = Some ([("order", "o"); ("order.customer", "oc")],
                  ["@o=order"; "@oc=order.customer"])) as Hgen
    by (vm_compute; reflexivity).
  apply (accepted_prefix_occurs_twice defaultConfig orderPaths _ _
           "order.customer" "oc" Hgen).
  right. left.
Defined.
